(** * chunker: symbol-tree flattening and view synthesis

    A shallow embedding of the Go packages [nl] (identifier tokenizer,
    humanizer, view builder), [parser] (symbol-tree flattener, docstring
    and snippet extraction) and [output] (JSON writer), with the
    properties of the specification stated over it.

    Go strings are byte sequences: they are modelled as [list ascii]
    (one [ascii] per byte).  Go [int] values are modelled as [Z]; where
    the program adds to an [int] the 64-bit wrap-around is written out. *)

From Stdlib Require Import List Ascii String ZArith Lia Bool.
Import ListNotations.

(** ** Go strings *)

Definition gostring := list ascii.

(** A string literal as a byte sequence. *)
Definition str (s : string) : gostring := list_ascii_of_string s.

(** Bytes given by their numeric value. *)
Definition bytes (l : list nat) : gostring := map ascii_of_nat l.

Definition code (c : ascii) : N := N_of_ascii c.

Definition inRange (lo hi c : ascii) : bool :=
  (code lo <=? code c)%N && (code c <=? code hi)%N.

Definition isUpper (c : ascii) : bool := inRange "A" "Z" c.
Definition isLower (c : ascii) : bool := inRange "a" "z" c.
Definition isDigit (c : ascii) : bool := inRange "0" "9" c.

(** [utf8.RuneSelf]: bytes below it are single-byte runes. *)
Definition isASCII (c : ascii) : bool := (code c <? 128)%N.

Fixpoint streq (a b : gostring) : bool :=
  match a, b with
  | [], [] => true
  | x :: a', y :: b' => Ascii.eqb x y && streq a' b'
  | _, _ => false
  end.

Definition isEmpty (s : gostring) : bool :=
  match s with [] => true | _ => false end.

(** ** Package [strings] *)

Module strings.

(** If [p] is a prefix of [s], the rest of [s]. *)
Fixpoint stripPrefix (p s : gostring) : option gostring :=
  match p, s with
  | [], _ => Some s
  | a :: p', b :: s' => if Ascii.eqb a b then stripPrefix p' s' else None
  | _ :: _, [] => None
  end.

Definition HasPrefix (s p : gostring) : bool :=
  match stripPrefix p s with Some _ => true | None => false end.

Definition TrimPrefix (s p : gostring) : gostring :=
  match stripPrefix p s with Some r => r | None => s end.

(** [strings.Join]. *)
Fixpoint Join (elems : list gostring) (sep : gostring) : gostring :=
  match elems with
  | [] => []
  | [e] => e
  | e :: rest => e ++ sep ++ Join rest sep
  end.

(** The table [asciiSpace] of package strings. *)
Definition asciiSpaces : list ascii :=
  map ascii_of_nat [9; 10; 11; 12; 13; 32].

Definition asciiSpace (c : ascii) : bool := existsb (Ascii.eqb c) asciiSpaces.

(** The UTF-8 encodings of the code points above U+007F for which
    [unicode.IsSpace] holds: U+0085, U+00A0, U+1680, U+2000..U+200A,
    U+2028, U+2029, U+202F, U+205F, U+3000. *)
Definition unicodeSpaceRunes : list gostring :=
  [ bytes [194; 133]; bytes [194; 160]; bytes [225; 154; 128];
    bytes [226; 128; 128]; bytes [226; 128; 129]; bytes [226; 128; 130];
    bytes [226; 128; 131]; bytes [226; 128; 132]; bytes [226; 128; 133];
    bytes [226; 128; 134]; bytes [226; 128; 135]; bytes [226; 128; 136];
    bytes [226; 128; 137]; bytes [226; 128; 138]; bytes [226; 128; 168];
    bytes [226; 128; 169]; bytes [226; 128; 175]; bytes [226; 129; 159];
    bytes [227; 128; 128] ].

(** Every encoded rune that [unicode.IsSpace] accepts. *)
Definition spaceRunes : list gostring :=
  map (fun c => [c]) asciiSpaces ++ unicodeSpaceRunes.

(** The rest of [s] after the first rune of [runes] that starts it. *)
Fixpoint dropRune (runes : list gostring) (s : gostring) : option gostring :=
  match runes with
  | [] => None
  | p :: runes' =>
      match stripPrefix p s with
      | Some r => Some r
      | None => dropRune runes' s
      end
  end.

(** Drop leading runes of [runes] for as long as there is one; every
    rune has at least one byte, so [length s] steps are enough. *)
Fixpoint trimRunes (runes : list gostring) (fuel : nat) (s : gostring)
  : gostring :=
  match fuel with
  | O => s
  | S fuel' =>
      match dropRune runes s with
      | Some r => trimRunes runes fuel' r
      | None => s
      end
  end.

Definition TrimLeftSpace (s : gostring) : gostring :=
  trimRunes spaceRunes (List.length s) s.

(** Trailing runes are found by [utf8.DecodeLastRuneInString]; a string
    ends with a space rune exactly when its reversal starts with the
    reversed encoding. *)
Definition revRunes : list gostring := map (@rev ascii) spaceRunes.

Definition TrimRightSpace (s : gostring) : gostring :=
  rev (trimRunes revRunes (List.length s) (rev s)).

(** [strings.TrimSpace]: the ASCII fast path and the fall-back to
    [TrimFunc(s, unicode.IsSpace)] together remove the leading and then
    the trailing white-space runes. *)
Definition TrimSpace (s : gostring) : gostring :=
  TrimRightSpace (TrimLeftSpace s).

(** [strings.ToLower] on the ASCII letters; the tokenizer applies it to
    tokens made of ASCII letters, digits and underscores only. *)
Definition lowerByte (c : ascii) : ascii :=
  if isUpper c then ascii_of_N (code c + 32) else c.

Definition ToLower (s : gostring) : gostring := map lowerByte s.

(** [strings.NewReplacer("::", " ", "->", " ", ".", " ").Replace]: the
    string is scanned from the left, a match is replaced by one space
    and the scan resumes after it. *)
Fixpoint ReplaceSeparators (s : gostring) : gostring :=
  match s with
  | [] => []
  | c :: r =>
      match r with
      | d :: r' =>
          if (Ascii.eqb c ":" && Ascii.eqb d ":")
             || (Ascii.eqb c "-" && Ascii.eqb d ">")
          then " "%char :: ReplaceSeparators r'
          else if Ascii.eqb c "." then " "%char :: ReplaceSeparators r
          else c :: ReplaceSeparators r
      | [] => if Ascii.eqb c "." then [" "%char] else [c]
      end
  end.

(** [strings.FieldsFunc(s, f)]: the maximal runs of bytes on which [f]
    is false.  [cur] holds the current run, reversed. *)
Fixpoint fieldsAux (f : ascii -> bool) (s cur : gostring) : list gostring :=
  match s with
  | [] => if isEmpty cur then [] else [rev cur]
  | c :: r =>
      if f c
      then (if isEmpty cur then fieldsAux f r [] else rev cur :: fieldsAux f r [])
      else fieldsAux f r (c :: cur)
  end.

Definition FieldsFunc (s : gostring) (f : ascii -> bool) : list gostring :=
  fieldsAux f s [].

(** [strings.Split(s, sep)] for a one-byte separator. *)
Fixpoint splitAux (sep : ascii) (s cur : gostring) : list gostring :=
  match s with
  | [] => [rev cur]
  | c :: r =>
      if Ascii.eqb c sep then rev cur :: splitAux sep r []
      else splitAux sep r (c :: cur)
  end.

Definition Split (s : gostring) (sep : ascii) : list gostring :=
  splitAux sep s [].

End strings.

(** ** Package [regexp] *)

Module regexp.

(** [re.Split(s, -1)] for a pattern [C+] where [C] is a class of bytes:
    the pieces between the maximal runs of [C], with an empty first
    piece when [s] starts with a run and an empty last piece when it
    ends with one; [prev] tells that the previous byte was in a run. *)
Fixpoint splitRuns (C : ascii -> bool) (s cur : gostring) (prev : bool)
  : list gostring :=
  match s with
  | [] => [rev cur]
  | c :: r =>
      if C c
      then (if prev then splitRuns C r [] true
            else rev cur :: splitRuns C r [] true)
      else splitRuns C r (c :: cur) false
  end.

Definition Split (C : ascii -> bool) (s : gostring) : list gostring :=
  splitRuns C s [] false.

End regexp.

(** ** Package [camelcase] (github.com/fatih/camelcase) *)

Module camelcase.

(** The class of a rune: 1 lower, 2 upper, 3 digit, 4 other. *)
Definition classOf (c : ascii) : nat :=
  if isLower c then 1 else if isUpper c then 2 else if isDigit c then 3 else 4.

(** First loop of [Split]: group the runes into runs of one class.  The
    runs and the current run are kept reversed while scanning. *)
Fixpoint groupRuns (s : gostring) (lastClass : nat) (cur : gostring)
  (done : list gostring) : list gostring :=
  match s with
  | [] => rev (match cur with [] => done | _ => rev cur :: done end)
  | c :: r =>
      let class := classOf c in
      if Nat.eqb class lastClass
      then groupRuns r class (c :: cur) done
      else groupRuns r class [c]
             (match cur with [] => done | _ => rev cur :: done end)
  end.

(** Second loop of [Split]: when a run starting with an upper-case
    letter is followed by a run starting with a lower-case letter, the
    last letter of the first moves to the front of the second.  [a] is
    [runes[i]] as the earlier iterations left it, [rest] the runs after
    it. *)
Fixpoint fixUpper (a : gostring) (rest : list gostring) : list gostring :=
  match rest with
  | [] => [a]
  | b :: rest' =>
      match a, b with
      | a0 :: _, b0 :: _ =>
          if isUpper a0 && isLower b0
          then removelast a :: fixUpper (last a a0 :: b) rest'
          else a :: fixUpper b rest'
      | _, _ => a :: fixUpper b rest'
      end
  end.

(** [camelcase.Split] on a string of ASCII bytes (always valid UTF-8,
    so the [utf8.ValidString] guard passes); the last loop keeps the
    non-empty runs. *)
Definition Split (src : gostring) : list gostring :=
  match groupRuns src 0 [] [] with
  | [] => []
  | a :: rest => filter (fun r => negb (isEmpty r)) (fixUpper a rest)
  end.

End camelcase.

(** ** Package [model] *)

Module model.

Record ChunkContext := {
  Module_ : gostring;
  FilePath : gostring;
  FileName : gostring;
  StructName : gostring;
  Snippet : gostring
}.

(** The chunk with the views added for vectorization. *)
Record SemanticChunk := {
  Name : gostring;
  Signature : gostring;
  CodeType : gostring;
  Docstring : gostring;
  Line : Z;
  LineFrom : Z;
  LineTo : Z;
  Context : ChunkContext;
  TextView : gostring;
  CodeView : gostring;
  IdentTokens : list gostring
}.

End model.

(** ** Package [nl]: humanizer, tokenizer and views *)

Module nl.

Import strings.

Record Views := {
  TextView : gostring;
  CodeView : gostring;
  IdentTokens : list gostring
}.

(** The bytes the patterns [[^A-Za-z0-9_]] and [\W] do not match. *)
Definition isWordByte (c : ascii) : bool :=
  isUpper c || isLower c || isDigit c || Ascii.eqb c "_".

Definition nonWord (c : ascii) : bool := negb (isWordByte c).

Definition filterEmpty (l : list gostring) : list gostring :=
  filter (fun v => negb (isEmpty v)) l.

Definition splitAlphaNum (s : gostring) : list gostring :=
  filterEmpty (regexp.Split nonWord s).

Definition TokenizeForText (s : gostring) : gostring :=
  Join (filterEmpty (regexp.Split nonWord s)) (str " ").

Definition Humanize (s : gostring) : gostring :=
  if isEmpty s then s
  else
    let parts := splitAlphaNum (ReplaceSeparators s) in
    Join (filterEmpty (map TrimSpace parts)) (str " ").

(** The variables [seen] and [out] that the closure [add] of
    [Subtokenize] updates. *)
Record tokens := {
  seen : list gostring;
  out : list gostring
}.

Definition add (t : gostring) (st : tokens) : tokens :=
  if isEmpty t then st
  else if existsb (streq t) (seen st) then st
  else {| seen := t :: seen st; out := out st ++ [t] |}.

(** The loop over the camel-case parts of one underscore field. *)
Definition addParts (parts : list gostring) (st : tokens) : tokens :=
  fold_left (fun st p => add (ToLower p) (add p st)) parts st.

(** The loop over the underscore fields of one raw token. *)
Definition addFields (fields : list gostring) (st : tokens) : tokens :=
  fold_left
    (fun st u => if isEmpty u then st else addParts (camelcase.Split u) st)
    fields st.

(** The body of the loop over the raw tokens. *)
Definition addToken (st : tokens) (tok : gostring) : tokens :=
  let st := add (ToLower tok) (add tok st) in
  addFields (FieldsFunc tok (fun r => Ascii.eqb r "_")) st.

(** The result is a Go slice; [nil] and the empty slice are both the
    empty list here. *)
Definition Subtokenize (s : gostring) : list gostring :=
  if isEmpty s then []
  else
    let rawTokens := splitAlphaNum (ReplaceSeparators s) in
    out (fold_left addToken rawTokens {| seen := []; out := [] |}).

Definition newline : gostring := bytes [10].

Definition BuildViews (c : model.SemanticChunk) : Views :=
  let nameRaw := model.Name c in
  let sigRaw := model.Signature c in
  let identTokens := Subtokenize nameRaw in
  let nameH := Humanize nameRaw in
  let sigH := Humanize sigRaw in
  let ctx := model.Context c in
  let doc := TrimSpace (model.Docstring c) in
  let docPart :=
    if negb (isEmpty doc) then str "that does " ++ doc ++ str " " else [] in
  let summary := TrimSpace (
    TrimSpace (model.CodeType c) ++ str " " ++
    TrimSpace nameH ++ str " " ++
    docPart ++ str "defined as " ++
    TrimSpace sigH ++ str " module " ++
    TrimSpace (model.Module_ ctx) ++ str " file " ++
    TrimSpace (model.FileName ctx) ++ str " original_name " ++
    TrimSpace nameRaw ++ str " original_signature " ++
    TrimSpace sigRaw ++ str " identifiers " ++
    Join identTokens (str " ")) in
  let textView := TokenizeForText summary in
  let codeView := TrimSpace (sigRaw ++ newline ++ model.Snippet ctx) in
  {| TextView := textView; CodeView := codeView; IdentTokens := identTokens |}.

End nl.

(** ** Go slices *)

(** A slice value is [nil] or holds elements; [encoding/json] tells the
    two apart. *)
Inductive slice (A : Type) : Type :=
| nilSlice : slice A
| mkSlice : list A -> slice A.

Arguments nilSlice {A}.
Arguments mkSlice {A} _.

Definition elems {A : Type} (s : slice A) : list A :=
  match s with
  | nilSlice => []
  | mkSlice l => l
  end.

(** [append(s, x)]. *)
Definition append {A : Type} (s : slice A) (x : A) : slice A :=
  mkSlice (elems s ++ [x]).

(** [len] of a slice, as a Go [int]. *)
Definition len {A : Type} (l : list A) : Z := Z.of_nat (List.length l).

(** [l[a:b]]. *)
Definition subslice {A : Type} (a b : Z) (l : list A) : list A :=
  firstn (Z.to_nat b - Z.to_nat a) (skipn (Z.to_nat a) l).

(** Wrap-around of 64-bit signed arithmetic. *)
Definition wrap64 (x : Z) : Z := (x + 2 ^ 63) mod 2 ^ 64 - 2 ^ 63.

(** ** Package [lsp]: the symbol tree *)

Module lsp.

Record Position := {
  Line : Z;
  Character : Z
}.

Record Range := {
  Start : Position;
  End_ : Position
}.

(** Modelled from the spec: the declaration of [DocumentSymbol] is not
    among the sources; the fields are those of the spec's SymbolNode
    ([name], [detail], [kind], [range], [children]) under the names the
    flattener reads them by. *)
#[local] Unset Elimination Schemes.
Inductive DocumentSymbol : Type :=
  mkDocumentSymbol {
    Name : gostring;
    Detail : gostring;
    Kind : Z;
    Range_ : Range;
    Children : list DocumentSymbol
  }.
#[local] Set Elimination Schemes.

(** Modelled from the spec: the constants [SymbolKind...] are not among
    the sources; the numbers of the kinds the flattener names are taken
    as a parameter. *)
Record SymbolKinds := {
  SymbolKindFunction : Z;
  SymbolKindMethod : Z;
  SymbolKindClass : Z;
  SymbolKindStruct : Z;
  SymbolKindConstructor : Z;
  SymbolKindEnum : Z;
  SymbolKindInterface : Z;
  SymbolKindNamespace : Z
}.

End lsp.

(** ** Package [parser]: the symbol-tree flattener *)

Module parser.

Import strings.

Record ChunkContext := {
  Module_ : gostring;
  FilePath : gostring;
  FileName : gostring;
  StructName : gostring;
  Snippet : gostring
}.

Record SemanticChunk := {
  Name : gostring;
  Signature : gostring;
  CodeType : gostring;
  Docstring : gostring;
  Line : Z;
  LineFrom : Z;
  LineTo : Z;
  Context : ChunkContext
}.

Definition getSignature (symbol : lsp.DocumentSymbol) : gostring :=
  if negb (isEmpty (lsp.Detail symbol)) then lsp.Detail symbol
  else lsp.Name symbol.

(** The loop of [extractDocstring]; the loop variable [i] runs downwards
    and the loop ends below 0, so the recursion is on [i + 1]. *)
Fixpoint docLoop (fileLines : list gostring) (n : nat)
  (docLines : list gostring) : list gostring :=
  match n with
  | O => docLines
  | S i =>
      if (Z.of_nat i <? len fileLines)%Z then
        let line := TrimSpace (nth i fileLines []) in
        if HasPrefix line (str "///") then
          let doc := TrimSpace (TrimPrefix line (str "///")) in
          docLoop fileLines i (doc :: docLines)
        else if HasPrefix line (str "//!") then
          let doc := TrimSpace (TrimPrefix line (str "//!")) in
          docLoop fileLines i (doc :: docLines)
        else if isEmpty line then docLoop fileLines i docLines
        else docLines
      else docLines
  end.

Definition extractDocstring (symbol : lsp.DocumentSymbol)
  (fileLines : list gostring) : gostring :=
  let startLine := lsp.Line (lsp.Start (lsp.Range_ symbol)) in
  if ((startLine =? 0) || (startLine >? len fileLines))%Z then []
  else
    let i := wrap64 (startLine - 1) in
    let docLines :=
      if (0 <=? i)%Z then docLoop fileLines (S (Z.to_nat i)) [] else [] in
    Join docLines (str " ").

Definition extractSnippet (rng : lsp.Range) (fileLines : list gostring)
  : gostring :=
  let start := lsp.Line (lsp.Start rng) in
  let end_ := lsp.Line (lsp.End_ rng) in
  if ((start <? 0) || (end_ >=? len fileLines) || (start >? end_))%Z then []
  else Join (subslice start (end_ + 1) fileLines) (bytes [10]).

Section Flattener.

(** The numbers of the symbol kinds. *)
Variable K : lsp.SymbolKinds.

(** [filepath.Base] and [filepath.Dir] of the Go library. *)
Variable filepath_Base : gostring -> gostring.
Variable filepath_Dir : gostring -> gostring.

(** What [readFileLines] finds on disk: the lines of the file, none
    when it cannot be opened. *)
Variable readFileLines : gostring -> list gostring.

Definition shouldExtractSymbol (kind : Z) : bool :=
  ((kind =? lsp.SymbolKindFunction K) ||
   (kind =? lsp.SymbolKindMethod K) ||
   (kind =? lsp.SymbolKindClass K) ||
   (kind =? lsp.SymbolKindStruct K) ||
   (kind =? lsp.SymbolKindConstructor K) ||
   (kind =? lsp.SymbolKindEnum K) ||
   (kind =? lsp.SymbolKindInterface K) ||
   (kind =? lsp.SymbolKindNamespace K))%Z.

(** The map literal [kinds]. *)
Definition kinds : list (Z * gostring) :=
  [ (lsp.SymbolKindFunction K, str "Function");
    (lsp.SymbolKindMethod K, str "Method");
    (lsp.SymbolKindClass K, str "Class");
    (lsp.SymbolKindStruct K, str "Struct");
    (lsp.SymbolKindConstructor K, str "Constructor");
    (lsp.SymbolKindEnum K, str "Enum");
    (lsp.SymbolKindInterface K, str "Interface");
    (lsp.SymbolKindNamespace K, str "Namespace") ].

Definition symbolKindToString (kind : Z) : gostring :=
  match find (fun kv => (fst kv =? kind)%Z) kinds with
  | Some kv => snd kv
  | None => str "Unknown"
  end.

(** [filepath.Separator] is the slash. *)
Definition extractModule (filePath : gostring) : gostring :=
  let dir := filepath_Dir filePath in
  let parts := Split dir "/" in
  if (len parts >? 0)%Z then last parts [] else [].

Definition isClassOrStruct (kind : Z) : bool :=
  ((kind =? lsp.SymbolKindClass K) || (kind =? lsp.SymbolKindStruct K))%Z.

(** The chunk that [processSymbol] builds from an extractable symbol. *)
Definition newChunk (symbol : lsp.DocumentSymbol) (filePath : gostring)
  (fileLines : list gostring) (parentStruct : gostring) : SemanticChunk :=
  {| Name := lsp.Name symbol;
     Signature := getSignature symbol;
     CodeType := symbolKindToString (lsp.Kind symbol);
     Docstring := extractDocstring symbol fileLines;
     Line := wrap64 (lsp.Line (lsp.Start (lsp.Range_ symbol)) + 1);
     LineFrom := wrap64 (lsp.Line (lsp.Start (lsp.Range_ symbol)) + 1);
     LineTo := wrap64 (lsp.Line (lsp.End_ (lsp.Range_ symbol)) + 1);
     Context :=
       {| Module_ := extractModule filePath;
          FilePath := filePath;
          FileName := filepath_Base filePath;
          StructName := parentStruct;
          Snippet := extractSnippet (lsp.Range_ symbol) fileLines |} |}.

(** [chunks] is the slice behind the pointer that [processSymbol]
    appends to; the updated slice is returned. *)
Fixpoint processSymbol (symbol : lsp.DocumentSymbol) (filePath : gostring)
  (fileLines : list gostring) (parentStruct : gostring)
  (chunks : slice SemanticChunk) {struct symbol} : slice SemanticChunk :=
  let extract := shouldExtractSymbol (lsp.Kind symbol) in
  let chunks1 :=
    if extract
    then append chunks (newChunk symbol filePath fileLines parentStruct)
    else chunks in
  let parentStruct1 :=
    if extract && isClassOrStruct (lsp.Kind symbol)
    then lsp.Name symbol
    else parentStruct in
  fold_left
    (fun chunks child =>
       processSymbol child filePath fileLines parentStruct1 chunks)
    (lsp.Children symbol) chunks1.

Definition ConvertSymbolsToChunks (symbols : list lsp.DocumentSymbol)
  (filePath : gostring) : slice SemanticChunk :=
  let fileLines := readFileLines filePath in
  fold_left
    (fun chunks symbol => processSymbol symbol filePath fileLines [] chunks)
    symbols nilSlice.

End Flattener.

End parser.

(** ** Package [output]: the JSON writer *)

Module output.

Import strings.

Section Writer.

(** The element type of the slice and its indented encoding, which
    [encoding/json] derives from the struct tags. *)
Variable Chunk : Type.
Variable marshalElem : Chunk -> gostring.

(** The file system: its states and the calls on it, each giving back a
    Go error ([None] is [nil]) and the next state. *)
Variable FS : Type.
Variable filepath_Dir : gostring -> gostring.
Variable MkdirAll : gostring -> FS -> option gostring * FS.
Variable WriteFile : gostring -> gostring -> FS -> option gostring * FS.

(** [json.MarshalIndent] with an empty prefix and an indent of two
    spaces on a slice of structs: a nil slice encodes as the null JSON
    value, any other as an array; the encoding of this element type has
    no failing case. *)
Definition MarshalIndent (chunks : slice Chunk) : gostring * option gostring :=
  match chunks with
  | nilSlice => (str "null", None)
  | mkSlice [] => (str "[]", None)
  | mkSlice l =>
      (str "[" ++ bytes [10] ++ str "  " ++
       Join (map marshalElem l) (str "," ++ bytes [10] ++ str "  ") ++
       bytes [10] ++ str "]", None)
  end.

Definition WriteJSON (chunks : slice Chunk) (outputPath : gostring) (fs : FS)
  : option gostring * FS :=
  let dir := filepath_Dir outputPath in
  match MkdirAll dir fs with
  | (Some err, fs1) => (Some (str "create output directory: " ++ err), fs1)
  | (None, fs1) =>
      match MarshalIndent chunks with
      | (_, Some err) => (Some (str "marshal JSON: " ++ err), fs1)
      | (data, None) =>
          match WriteFile outputPath data fs1 with
          | (Some err, fs2) => (Some (str "write file: " ++ err), fs2)
          | (None, fs2) => (None, fs2)
          end
      end
  end.

End Writer.

End output.

(** ** The notions of the specification *)

Module spec.

Section Tree.

Variable K : lsp.SymbolKinds.

(** The extractable set. *)
Definition extractableKinds : list Z :=
  [ lsp.SymbolKindFunction K; lsp.SymbolKindMethod K; lsp.SymbolKindClass K;
    lsp.SymbolKindStruct K; lsp.SymbolKindConstructor K; lsp.SymbolKindEnum K;
    lsp.SymbolKindInterface K; lsp.SymbolKindNamespace K ].

Definition extractable (n : lsp.DocumentSymbol) : bool :=
  existsb (Z.eqb (lsp.Kind n)) extractableKinds.

(** The number of nodes of a tree, at any depth, whose kind is in the
    extractable set. *)
Fixpoint countExtractable (n : lsp.DocumentSymbol) : nat :=
  (if extractable n then 1 else 0)
  + list_sum (map countExtractable (lsp.Children n)).

(** The nodes of a tree in pre-order (a node, then the subtrees of its
    children from the first to the last), each with its ancestors, the
    nearest first. *)
Fixpoint preorderFrom (ancestors : list lsp.DocumentSymbol)
  (n : lsp.DocumentSymbol) : list (list lsp.DocumentSymbol * lsp.DocumentSymbol) :=
  (ancestors, n) :: flat_map (preorderFrom (n :: ancestors)) (lsp.Children n).

Definition preorder (symbols : list lsp.DocumentSymbol)
  : list (list lsp.DocumentSymbol * lsp.DocumentSymbol) :=
  flat_map (preorderFrom []) symbols.

Definition classOrStruct (n : lsp.DocumentSymbol) : bool :=
  existsb (Z.eqb (lsp.Kind n)) [lsp.SymbolKindClass K; lsp.SymbolKindStruct K].

(** The name of the nearest ancestor whose kind is Class or Struct,
    empty when there is none. *)
Definition nearestStruct (ancestors : list lsp.DocumentSymbol) : gostring :=
  match find classOrStruct ancestors with
  | Some a => lsp.Name a
  | None => []
  end.

End Tree.

(** The ASCII letters, the decimal digits and the underscore. *)
Definition tokenAlphabet : gostring :=
  str "ABCDEFGHIJKLMNOPQRSTUVWXYZabcdefghijklmnopqrstuvwxyz0123456789_".

Definition tokenByte (c : ascii) : bool := existsb (Ascii.eqb c) tokenAlphabet.

(** White space at the two ends of a string: a rune accepted by
    [unicode.IsSpace] starts it, or ends it. *)
Definition startsWithSpace (s : gostring) : bool :=
  match strings.dropRune strings.spaceRunes s with
  | Some _ => true
  | None => false
  end.

Definition endsWithSpace (s : gostring) : bool :=
  match strings.dropRune strings.revRunes (rev s) with
  | Some _ => true
  | None => false
  end.

(** A string of word bytes, and a token: such a string that is not
    empty. *)
Definition word (t : gostring) : Prop :=
  Forall (fun c => nl.isWordByte c = true) t.

Definition token (t : gostring) : Prop := t <> [] /\ word t.

(** The tokenizer's variables agree: [seen] holds the tokens of [out],
    and [out] has each of them once. *)
Definition consistent (st : nl.tokens) : Prop :=
  NoDup (nl.out st) /\ forall t, In t (nl.seen st) <-> In t (nl.out st).

Section Flatten.

Variable K : lsp.SymbolKinds.
Variable filepath_Base : gostring -> gostring.
Variable filepath_Dir : gostring -> gostring.
Variable filePath : gostring.
Variable fileLines : list gostring.

(** The chunk of a node listed with its ancestors. *)
Definition chunkAt (e : list lsp.DocumentSymbol * lsp.DocumentSymbol)
  : parser.SemanticChunk :=
  parser.newChunk K filepath_Base filepath_Dir (snd e) filePath fileLines
    (nearestStruct K (fst e)).

(** The chunk of the node itself, if the node is extractable, under the
    enclosing type name [parent]. *)
Definition ownChunk (parent : gostring) (n : lsp.DocumentSymbol)
  : list parser.SemanticChunk :=
  if extractable K n
  then [parser.newChunk K filepath_Base filepath_Dir n filePath fileLines parent]
  else [].

(** The enclosing type name that the children of a node see. *)
Definition childContext (parent : gostring) (n : lsp.DocumentSymbol)
  : gostring :=
  if classOrStruct K n then lsp.Name n else parent.

(** The chunks that the flattener appends for a list of sibling
    subtrees under the enclosing type name [parent]. *)
Definition chunksOf (parent : gostring) (forest : list lsp.DocumentSymbol)
  : list parser.SemanticChunk :=
  elems
    (fold_left
       (fun chunks symbol =>
          parser.processSymbol K filepath_Base filepath_Dir symbol filePath
            fileLines parent chunks)
       forest nilSlice).

End Flatten.

(** The lines [start] to [end_] of a file, both included. *)
Definition linesBetween (start end_ : Z) (fileLines : list gostring)
  : list gostring :=
  map (fun i => nth i fileLines [])
    (seq (Z.to_nat start) (Z.to_nat (end_ - start + 1))).

Definition validRange (start end_ : Z) (fileLines : list gostring) : Prop :=
  (0 <= start /\ end_ < len fileLines /\ start <= end_)%Z.

Definition invalidRange (start end_ : Z) (fileLines : list gostring) : Prop :=
  (start < 0 \/ end_ >= len fileLines \/ start > end_)%Z.

End spec.

(** ** Concrete parameters for the examples *)

(** The symbol kinds of the Language Server Protocol. *)
Definition lspKinds : lsp.SymbolKinds :=
  {| lsp.SymbolKindFunction := 12; lsp.SymbolKindMethod := 6;
     lsp.SymbolKindClass := 5; lsp.SymbolKindStruct := 23;
     lsp.SymbolKindConstructor := 9; lsp.SymbolKindEnum := 10;
     lsp.SymbolKindInterface := 11; lsp.SymbolKindNamespace := 3 |}.

(** A file system held in memory: the files written so far, the newest
    first; creating a directory and writing a file always succeed. *)
Module memfs.

Definition FS := list (gostring * gostring).

Definition MkdirAll (dir : gostring) (fs : FS) : option gostring * FS :=
  (None, fs).

Definition WriteFile (path data : gostring) (fs : FS) : option gostring * FS :=
  (None, (path, data) :: fs).

End memfs.

(** ** Example inputs *)

(** The chunk of the test of [BuildViews]. *)
Definition testChunk : model.SemanticChunk :=
  {| model.Name := str "QuaGzipFile::qt_static_metacall";
     model.Signature := str "void (QObject *, QMetaObject::Call, int, void **)";
     model.CodeType := str "Method";
     model.Docstring := [];
     model.Line := 0; model.LineFrom := 0; model.LineTo := 0;
     model.Context :=
       {| model.Module_ := str "EWIEGA46WW";
          model.FilePath := [];
          model.FileName := str "moc_quagzipfile.cpp";
          model.StructName := [];
          model.Snippet := str "void QuaGzipFile::qt_static_metacall(QObject *_o, QMetaObject::Call _c, int _id, void **_a) {}" |};
     model.TextView := []; model.CodeView := []; model.IdentTokens := [] |}.

(** A chunk of a file that could not be read: the snippet is empty. *)
Definition noSnippetChunk : model.SemanticChunk :=
  {| model.Name := str "f";
     model.Signature := str "void f()";
     model.CodeType := str "Function";
     model.Docstring := [];
     model.Line := 1; model.LineFrom := 1; model.LineTo := 1;
     model.Context :=
       {| model.Module_ := str "src";
          model.FilePath := str "src/f.cpp";
          model.FileName := str "f.cpp";
          model.StructName := [];
          model.Snippet := [] |};
     model.TextView := []; model.CodeView := []; model.IdentTokens := [] |}.

(** A symbol that starts on the given line. *)
Definition symbolAt (line : Z) : lsp.DocumentSymbol :=
  {| lsp.Name := str "function"; lsp.Detail := [];
     lsp.Kind := lsp.SymbolKindFunction lspKinds;
     lsp.Range_ :=
       {| lsp.Start := {| lsp.Line := line; lsp.Character := 0 |};
          lsp.End_ := {| lsp.Line := line; lsp.Character := 0 |} |};
     lsp.Children := [] |}.

Definition lineRange (start end_ : Z) : lsp.Range :=
  {| lsp.Start := {| lsp.Line := start; lsp.Character := 0 |};
     lsp.End_ := {| lsp.Line := end_; lsp.Character := 0 |} |}.

(** A line without any byte. *)
Definition emptyLine : gostring := [].

(** The source lines of the test of [extractDocstring]. *)
Definition docLines : list gostring :=
  [ str "// Regular comment"; str "/// This is documentation";
    str "/// on multiple lines"; emptyLine; str "void function() {}" ].

(** The symbol tree of the test of [ConvertSymbolsToChunks], with a
    field added to the class: a function, and a class with a
    constructor, a method and a field. *)
Definition leaf (name : string) (kind : Z) (line : Z) : lsp.DocumentSymbol :=
  {| lsp.Name := str name; lsp.Detail := []; lsp.Kind := kind;
     lsp.Range_ := lineRange line line; lsp.Children := [] |}.

Definition testClass : lsp.DocumentSymbol :=
  {| lsp.Name := str "TestClass"; lsp.Detail := []; lsp.Kind := 5;
     lsp.Range_ := lineRange 8 15;
     lsp.Children :=
       [ leaf "TestClass" 9 10; leaf "memberMethod" 6 13; leaf "count" 8 14 ] |}.

Definition testSymbols : list lsp.DocumentSymbol :=
  [ leaf "testFunction" 12 4; testClass ].

(** A tree without extractable node: a variable with a field below. *)
Definition variableOnly : list lsp.DocumentSymbol :=
  [ {| lsp.Name := str "config"; lsp.Detail := []; lsp.Kind := 13;
       lsp.Range_ := lineRange 0 0;
       lsp.Children := [ leaf "size" 8 0 ] |} ].

(** Parameters of the examples: paths are left as they are and no file
    can be read. *)
Definition samePath (p : gostring) : gostring := p.
Definition noLines (p : gostring) : list gostring := [].
Definition noEncoding (c : parser.SemanticChunk) : gostring := [].

(** * Properties *)

(** ** Trimming white space *)

Module TrimFacts.

Import strings.

Lemma stripPrefix_app (p z : gostring) : stripPrefix p (p ++ z) = Some z.
Proof.
  induction p as [|a p IH]; simpl; [reflexivity|].
  now rewrite Ascii.eqb_refl.
Qed.

Lemma stripPrefix_inv (p s r : gostring) :
  stripPrefix p s = Some r -> s = p ++ r.
Proof.
  revert s; induction p as [|a p IH]; intros s H; simpl in *.
  - now inversion H.
  - destruct s as [|b s]; [discriminate|].
    destruct (Ascii.eqb a b) eqn:E; [|discriminate].
    apply Ascii.eqb_eq in E; subst b. f_equal. now apply IH.
Qed.

Lemma dropRune_inv (runes : list gostring) (s r : gostring) :
  dropRune runes s = Some r -> exists p, In p runes /\ s = p ++ r.
Proof.
  induction runes as [|q runes IH]; simpl; [discriminate|].
  destruct (stripPrefix q s) eqn:E.
  - intros H; inversion H; subst. exists q. split; [now left|].
    now apply stripPrefix_inv.
  - intros H. destruct (IH H) as (p & Hp & ->). exists p. split; [now right|easy].
Qed.

Lemma trimRunes_fixed (runes : list gostring) (n : nat) (s : gostring) :
  dropRune runes s = None -> trimRunes runes n s = s.
Proof. intros H. destruct n; simpl; [reflexivity|]. now rewrite H. Qed.

Section Runes.

Variable runes : list gostring.

(** A rune of the table that starts a string is the one dropped. *)
Hypothesis runes_drop :
  forall p z, In p runes -> dropRune runes (p ++ z) = Some z.

Hypothesis runes_nonempty : forall p, In p runes -> p <> [].

(** The encodings of more than one byte have no ASCII byte. *)
Hypothesis runes_multibyte :
  forall p c, In p runes -> 1 < List.length p -> In c p -> isASCII c = false.

(** The fuel [length s] is enough: nothing is left to drop. *)
Lemma trimRunes_done (n : nat) (s : gostring) :
  List.length s <= n -> dropRune runes (trimRunes runes n s) = None.
Proof.
  revert s; induction n as [|n IH]; intros s Hn; simpl.
  - destruct s; [|simpl in Hn; lia].
    destruct (dropRune runes []) eqn:E; [|reflexivity].
    apply dropRune_inv in E. destruct E as (p & Hp & E).
    symmetry in E. apply app_eq_nil in E. destruct E as [-> _].
    now apply runes_nonempty in Hp.
  - destruct (dropRune runes s) eqn:E; [|exact E].
    apply IH. apply dropRune_inv in E. destruct E as (p & Hp & ->).
    apply runes_nonempty in Hp. rewrite length_app in Hn.
    destruct p; [easy|simpl in Hn; lia].
Qed.

(** What is left is the end of the string. *)
Lemma trimRunes_suffix (n : nat) (s : gostring) :
  exists u, s = u ++ trimRunes runes n s.
Proof.
  revert s; induction n as [|n IH]; intros s; simpl.
  - now exists [].
  - destruct (dropRune runes s) eqn:E; [|now exists []].
    apply dropRune_inv in E. destruct E as (p & _ & ->).
    destruct (IH g) as (u & Hu). exists (p ++ u).
    rewrite <- app_assoc. now rewrite <- Hu.
Qed.

(** A string trimmed to nothing is empty or ends with a rune of the
    table. *)
Lemma trimRunes_nil (n : nat) (s : gostring) :
  List.length s <= n -> trimRunes runes n s = [] ->
  s = [] \/ exists p u, In p runes /\ s = u ++ p.
Proof.
  revert s; induction n as [|n IH]; intros s Hn; simpl.
  - intros ->. now left.
  - destruct (dropRune runes s) eqn:E; [|now left].
    apply dropRune_inv in E. destruct E as (p & Hp & ->).
    intros H. right. destruct (IH g) as [->|(q & u & Hq & ->)]; trivial.
    + pose proof (runes_nonempty _ Hp). rewrite length_app in Hn.
      destruct p; [easy|simpl in Hn; lia].
    + exists p, []. rewrite app_nil_r. now split.
    + exists q, (p ++ u). split; [easy|]. now rewrite app_assoc.
Qed.

(** Trimming looks no further than the first ASCII byte that is not
    dropped: text behind a part with something left is untouched. *)
Lemma trimRunes_app (n m : nat) (s y : gostring) (c : ascii) :
  List.length s <= n -> List.length (s ++ c :: y) <= m ->
  isASCII c = true ->
  trimRunes runes n s <> [] ->
  trimRunes runes m (s ++ c :: y) = trimRunes runes n s ++ c :: y.
Proof.
  intros Hn Hm Hc. revert s m Hn Hm.
  induction n as [|n IH]; intros s m Hn Hm; simpl.
  - destruct s; [easy|simpl in Hn; lia].
  - destruct (dropRune runes s) eqn:E.
    + apply dropRune_inv in E. destruct E as (p & Hp & ->).
      pose proof (runes_nonempty _ Hp) as Hne.
      rewrite <- app_assoc in *. rewrite !length_app in *.
      destruct m as [|m]; [destruct p; [easy|simpl in Hm; lia]|].
      simpl. rewrite (runes_drop _ _ Hp). intros H.
      apply IH; trivial; rewrite ?length_app; destruct p; simpl in *; try easy; lia.
    + intros Hs. apply trimRunes_fixed.
      destruct (dropRune runes (s ++ c :: y)) eqn:E2; [|reflexivity].
      exfalso. apply dropRune_inv in E2. destruct E2 as (p & Hp & E2).
      apply app_eq_app in E2. destruct E2 as (l & [[-> _]|[-> E3]]).
      * rewrite (runes_drop _ _ Hp) in E. discriminate.
      * destruct l as [|d l].
        { rewrite app_nil_r in Hp.
          rewrite <- (app_nil_r s) in E. rewrite (runes_drop _ _ Hp) in E.
          discriminate. }
        inversion E3; subst d.
        assert (isASCII c = false) as Hc'.
        { apply (runes_multibyte _ _ Hp).
          - rewrite length_app. destruct s; [easy|simpl; lia].
          - apply in_or_app. right. now left. }
        congruence.
Qed.

End Runes.

(** The facts above hold of the table of space runes and of the table
    of their reversals. *)
Lemma spaceRunes_drop (p z : gostring) :
  In p spaceRunes -> dropRune spaceRunes (p ++ z) = Some z.
Proof.
  intros H. repeat (destruct H as [<-|H]; [reflexivity|]). destruct H.
Qed.

Lemma spaceRunes_nonempty (p : gostring) : In p spaceRunes -> p <> [].
Proof.
  intros H. repeat (destruct H as [<-|H]; [discriminate|]). destruct H.
Qed.

Lemma spaceRunes_multibyte (p : gostring) (c : ascii) :
  In p spaceRunes -> 1 < List.length p -> In c p -> isASCII c = false.
Proof.
  intros H Hl Hc.
  repeat (destruct H as [<-|H];
          [simpl in Hl; try lia;
           repeat (destruct Hc as [<-|Hc]; [reflexivity|]); destruct Hc|]).
  destruct H.
Qed.

Lemma revRunes_drop (p z : gostring) :
  In p revRunes -> dropRune revRunes (p ++ z) = Some z.
Proof.
  intros H. repeat (destruct H as [<-|H]; [reflexivity|]). destruct H.
Qed.

Lemma revRunes_nonempty (p : gostring) : In p revRunes -> p <> [].
Proof.
  intros H. repeat (destruct H as [<-|H]; [discriminate|]). destruct H.
Qed.

Lemma revRunes_multibyte (p : gostring) (c : ascii) :
  In p revRunes -> 1 < List.length p -> In c p -> isASCII c = false.
Proof.
  intros H Hl Hc.
  repeat (destruct H as [<-|H];
          [simpl in Hl; try lia;
           repeat (destruct Hc as [<-|Hc]; [reflexivity|]); destruct Hc|]).
  destruct H.
Qed.

Lemma TrimLeftSpace_app (s y : gostring) (c : ascii) :
  isASCII c = true -> TrimLeftSpace s <> [] ->
  TrimLeftSpace (s ++ c :: y) = TrimLeftSpace s ++ c :: y.
Proof.
  intros Hc Hs. unfold TrimLeftSpace in *.
  apply (trimRunes_app spaceRunes spaceRunes_drop spaceRunes_nonempty
           spaceRunes_multibyte); trivial.
Qed.

Lemma TrimRightSpace_app (s y : gostring) (c : ascii) :
  isASCII c = true -> TrimRightSpace y <> [] ->
  TrimRightSpace (s ++ c :: y) = s ++ c :: TrimRightSpace y.
Proof.
  intros Hc Hy. unfold TrimRightSpace in *.
  replace (rev (s ++ c :: y)) with (rev y ++ c :: rev s)
    by (rewrite rev_app_distr; simpl; now rewrite <- app_assoc).
  rewrite (trimRunes_app revRunes revRunes_drop revRunes_nonempty
             revRunes_multibyte (List.length y)); trivial.
  - rewrite rev_app_distr. simpl. rewrite rev_involutive.
    now rewrite <- app_assoc.
  - now rewrite length_rev.
  - rewrite !length_app. simpl. rewrite !length_rev. lia.
  - intros E. apply Hy. now rewrite E.
Qed.

Lemma TrimLeftSpace_nil (s : gostring) :
  TrimLeftSpace s = [] -> s = [] \/ spec.endsWithSpace s = true.
Proof.
  intros H. unfold TrimLeftSpace in H.
  apply (trimRunes_nil spaceRunes spaceRunes_nonempty) in H; trivial.
  destruct H as [->|(p & u & Hp & ->)]; [now left|right].
  unfold spec.endsWithSpace. rewrite rev_app_distr.
  rewrite revRunes_drop; [reflexivity|]. now apply in_map.
Qed.

Lemma TrimRightSpace_nil (s : gostring) :
  TrimRightSpace s = [] -> s = [] \/ spec.startsWithSpace s = true.
Proof.
  intros H. unfold TrimRightSpace in H.
  assert (trimRunes revRunes (List.length s) (rev s) = []) as H'.
  { rewrite <- (rev_involutive (trimRunes _ _ _)). now rewrite H. }
  apply (trimRunes_nil revRunes revRunes_nonempty) in H';
    [|now rewrite length_rev].
  destruct H' as [E|(p & u & Hp & E)].
  - left. rewrite <- (rev_involutive s). now rewrite E.
  - right. apply in_map_iff in Hp. destruct Hp as (q & <- & Hq).
    assert (s = q ++ rev u) as ->.
    { rewrite <- (rev_involutive s), E, rev_app_distr.
      now rewrite rev_involutive. }
    unfold spec.startsWithSpace. now rewrite spaceRunes_drop.
Qed.

Lemma TrimLeftSpace_id (s : gostring) :
  spec.startsWithSpace s = false -> TrimLeftSpace s = s.
Proof.
  unfold spec.startsWithSpace, TrimLeftSpace. intros H.
  apply trimRunes_fixed. now destruct (dropRune spaceRunes s).
Qed.

Lemma TrimRightSpace_id (s : gostring) :
  spec.endsWithSpace s = false -> TrimRightSpace s = s.
Proof.
  unfold spec.endsWithSpace, TrimRightSpace. intros H.
  rewrite trimRunes_fixed; [apply rev_involutive|].
  now destruct (dropRune _ (rev s)).
Qed.

Lemma endsWithSpace_suffix (u s : gostring) :
  spec.endsWithSpace (u ++ s) = false -> spec.endsWithSpace s = false.
Proof.
  unfold spec.endsWithSpace. intros H.
  destruct (dropRune revRunes (rev s)) eqn:E; [|reflexivity].
  apply dropRune_inv in E. destruct E as (p & Hp & E).
  rewrite rev_app_distr, E, <- app_assoc, (revRunes_drop _ _ Hp) in H.
  discriminate.
Qed.

(** Trimming a signature and a snippet joined by a newline, when white
    space neither ends the first nor starts the second. *)
Lemma TrimSpace_join (sig snip : gostring) :
  sig <> [] -> snip <> [] ->
  spec.endsWithSpace sig = false -> spec.startsWithSpace snip = false ->
  TrimSpace (sig ++ nl.newline ++ snip)
  = TrimSpace sig ++ nl.newline ++ TrimSpace snip.
Proof.
  intros Hs Hn He Hb. unfold TrimSpace.
  change nl.newline with ["010"%char]. simpl app.
  assert (TrimLeftSpace sig <> []) as HA.
  { intros E. apply TrimLeftSpace_nil in E. destruct E; congruence. }
  assert (TrimRightSpace snip <> []) as HB.
  { intros E. apply TrimRightSpace_nil in E. destruct E; congruence. }
  rewrite TrimLeftSpace_app, TrimRightSpace_app; trivial.
  rewrite (TrimLeftSpace_id snip Hb).
  rewrite (TrimRightSpace_id (TrimLeftSpace sig)); [reflexivity|].
  unfold TrimLeftSpace.
  destruct (trimRunes_suffix spaceRunes (List.length sig) sig) as (u & Hu).
  apply (endsWithSpace_suffix u). now rewrite <- Hu.
Qed.

End TrimFacts.

(** ** The view synthesizer *)

(** C1, as stated, fails: for a chunk with an empty snippet the code
    view is the signature alone, while trim(signature) + newline +
    trim(snippet) ends with the newline. *)
Lemma C1_code_view_counterexample :
  nl.CodeView (nl.BuildViews noSnippetChunk) = str "void f()"
  /\ nl.CodeView (nl.BuildViews noSnippetChunk)
     <> strings.TrimSpace (model.Signature noSnippetChunk) ++ nl.newline
        ++ strings.TrimSpace (model.Snippet (model.Context noSnippetChunk)).
Proof. split; [reflexivity|discriminate]. Qed.

(** C1 (amended): the code view of every chunk is the trimmed join of
    signature, newline and snippet; it equals trim(signature) + newline
    + trim(snippet) when signature and snippet are not empty, the
    signature does not end with white space and the snippet does not
    start with it. *)
Theorem C1_code_view (c : model.SemanticChunk) :
  let sig := model.Signature c in
  let snip := model.Snippet (model.Context c) in
  nl.CodeView (nl.BuildViews c) = strings.TrimSpace (sig ++ nl.newline ++ snip)
  /\ (sig <> [] -> snip <> [] ->
      spec.endsWithSpace sig = false -> spec.startsWithSpace snip = false ->
      nl.CodeView (nl.BuildViews c)
      = strings.TrimSpace sig ++ nl.newline ++ strings.TrimSpace snip).
Proof.
  intros sig snip. split; [reflexivity|].
  intros. now apply TrimFacts.TrimSpace_join.
Qed.

Lemma C1_code_view_witness :
  nl.CodeView (nl.BuildViews testChunk)
  = strings.TrimSpace (model.Signature testChunk) ++ nl.newline
    ++ strings.TrimSpace (model.Snippet (model.Context testChunk)).
Proof.
  apply (C1_code_view testChunk); [discriminate|discriminate|reflexivity|reflexivity].
Defined.

(** ** The identifier tokenizer *)

Module TokenFacts.

Import strings nl spec.

Lemma fold_left_invariant {A B : Type} (Inv : A -> Prop) (f : A -> B -> A)
  (l : list B) (a : A) :
  (forall a x, In x l -> Inv a -> Inv (f a x)) -> Inv a -> Inv (fold_left f l a).
Proof.
  revert a; induction l as [|x l IH]; intros a Hf Ha; simpl; [exact Ha|].
  apply IH.
  - intros a' y Hy. apply Hf. now right.
  - apply Hf; [now left|exact Ha].
Qed.

Lemma isWordByte_tokenByte (c : ascii) : isWordByte c = tokenByte c.
Proof.
  destruct c as [[] [] [] [] [] [] [] []]; reflexivity.
Qed.

Lemma lowerByte_word (c : ascii) :
  isWordByte c = true -> isWordByte (lowerByte c) = true.
Proof.
  destruct c as [[] [] [] [] [] [] [] []]; intros H; try reflexivity;
    discriminate H.
Qed.

Section Bytes.

(** A property of bytes that the pieces of a string inherit. *)
Variable P : ascii -> Prop.

Lemma splitRuns_bytes (C : ascii -> bool) (s cur : gostring) (prev : bool) :
  (forall c, In c s -> C c = false -> P c) -> Forall P cur ->
  Forall (Forall P) (regexp.splitRuns C s cur prev).
Proof.
  revert cur prev; induction s as [|c s IH]; intros cur prev Hs Hcur; simpl.
  - constructor; [now apply Forall_rev|constructor].
  - assert (forall c0, In c0 s -> C c0 = false -> P c0) as Hs'
      by (intros; apply Hs; [now right|assumption]).
    destruct (C c) eqn:E.
    + destruct prev; [now apply IH|].
      constructor; [now apply Forall_rev|now apply IH].
    + apply IH; [assumption|]. constructor; [|assumption].
      apply Hs; [now left|assumption].
Qed.

Lemma filterEmpty_bytes (l : list gostring) :
  Forall (Forall P) l ->
  Forall (fun t => t <> [] /\ Forall P t) (filterEmpty l).
Proof.
  intros H. apply Forall_forall. intros t Ht.
  apply filter_In in Ht. destruct Ht as [Ht Hne].
  split; [now destruct t|].
  rewrite Forall_forall in H. now apply H.
Qed.

Lemma fieldsAux_bytes (f : ascii -> bool) (s cur : gostring) :
  Forall P s -> Forall P cur -> Forall (Forall P) (fieldsAux f s cur).
Proof.
  revert cur; induction s as [|c s IH]; intros cur Hs Hcur; simpl.
  - destruct (isEmpty cur); repeat constructor. now apply Forall_rev.
  - inversion Hs; subst.
    destruct (f c); [|apply IH; auto].
    destruct (isEmpty cur); [now apply IH|].
    constructor; [now apply Forall_rev|now apply IH].
Qed.

Lemma groupRuns_bytes (s cur : gostring) (k : nat) (done : list gostring) :
  Forall P s -> Forall P cur -> Forall (Forall P) done ->
  Forall (Forall P) (camelcase.groupRuns s k cur done).
Proof.
  revert cur k done; induction s as [|c s IH]; intros cur k done Hs Hc Hd; simpl.
  - apply Forall_rev. destruct cur; [assumption|].
    constructor; [now apply Forall_rev|assumption].
  - inversion Hs; subst.
    destruct (Nat.eqb (camelcase.classOf c) k).
    + apply IH; auto.
    + apply IH; auto. destruct cur; [assumption|].
      constructor; [now apply Forall_rev|assumption].
Qed.

Lemma removelast_bytes (a : gostring) : Forall P a -> Forall P (removelast a).
Proof.
  induction a as [|x a IH]; intros H; [constructor|].
  inversion H; subst. simpl. destruct a; [constructor|].
  constructor; [assumption|now apply IH].
Qed.

Lemma last_bytes (a : gostring) (d : ascii) : P d -> Forall P a -> P (last a d).
Proof.
  induction a as [|x a IH]; intros Hd H; [exact Hd|].
  inversion H; subst. simpl. destruct a; [assumption|now apply IH].
Qed.

Lemma fixUpper_bytes (a : gostring) (rest : list gostring) :
  Forall P a -> Forall (Forall P) rest ->
  Forall (Forall P) (camelcase.fixUpper a rest).
Proof.
  revert a; induction rest as [|b rest IH]; intros a Ha Hr; simpl.
  - repeat constructor; assumption.
  - inversion Hr; subst.
    destruct a as [|a0 a']; [constructor; [assumption|now apply IH]|].
    destruct b as [|b0 b']; [constructor; [assumption|now apply IH]|].
    destruct (isUpper a0 && isLower b0).
    + constructor; [now apply removelast_bytes|].
      apply IH; [|assumption].
      constructor; [|assumption].
      apply last_bytes; [now inversion Ha|assumption].
    + constructor; [assumption|now apply IH].
Qed.

Lemma Split_bytes (u : gostring) :
  Forall P u -> Forall (Forall P) (camelcase.Split u).
Proof.
  intros Hu. unfold camelcase.Split.
  pose proof (groupRuns_bytes u [] 0 [] Hu (Forall_nil _) (Forall_nil _)) as H.
  destruct (camelcase.groupRuns u 0 [] []) as [|a rest]; [constructor|].
  inversion H; subst.
  apply Forall_forall. intros t Ht. apply filter_In in Ht.
  destruct Ht as [Ht _].
  pose proof (fixUpper_bytes a rest H2 H3) as H'.
  rewrite Forall_forall in H'. now apply H'.
Qed.

End Bytes.

Lemma ToLower_word (t : gostring) : word t -> word (ToLower t).
Proof.
  unfold word, ToLower. intros H. apply Forall_map.
  eapply Forall_impl; [|exact H]. apply lowerByte_word.
Qed.

Lemma add_tokens (t : gostring) (st : tokens) :
  word t -> Forall token (out st) -> Forall token (out (add t st)).
Proof.
  intros Ht Hst. unfold add.
  destruct t as [|c t]; [exact Hst|]. simpl isEmpty. cbv iota.
  destruct (existsb _ (seen st)); [exact Hst|]. simpl.
  apply Forall_app. split; [exact Hst|].
  constructor; [|constructor]. split; [discriminate|exact Ht].
Qed.

Lemma add_pair_tokens (t : gostring) (st : tokens) :
  word t -> Forall token (out st) ->
  Forall token (out (add (ToLower t) (add t st))).
Proof.
  intros Ht Hst. apply add_tokens; [now apply ToLower_word|].
  now apply add_tokens.
Qed.

Lemma addParts_tokens (parts : list gostring) (st : tokens) :
  Forall word parts -> Forall token (out st) ->
  Forall token (out (addParts parts st)).
Proof.
  intros Hp Hst. unfold addParts.
  apply (fold_left_invariant (fun st => Forall token (out st))); [|exact Hst].
  intros st' p Hin H. apply add_pair_tokens; [|exact H].
  rewrite Forall_forall in Hp. now apply Hp.
Qed.

Lemma addFields_tokens (fields : list gostring) (st : tokens) :
  Forall word fields -> Forall token (out st) ->
  Forall token (out (addFields fields st)).
Proof.
  intros Hf Hst. unfold addFields.
  apply (fold_left_invariant (fun st => Forall token (out st))); [|exact Hst].
  intros st' u Hin H. destruct (isEmpty u); [exact H|].
  apply addParts_tokens; [|exact H].
  apply Split_bytes. rewrite Forall_forall in Hf. now apply Hf.
Qed.

Lemma addToken_tokens (st : tokens) (tok : gostring) :
  word tok -> Forall token (out st) -> Forall token (out (addToken st tok)).
Proof.
  intros Ht Hst. unfold addToken.
  apply addFields_tokens; [|now apply add_pair_tokens].
  apply fieldsAux_bytes; [exact Ht|constructor].
Qed.

Lemma splitAlphaNum_words (s : gostring) : Forall word (splitAlphaNum s).
Proof.
  unfold splitAlphaNum.
  assert (Forall word (regexp.Split nonWord s)) as H.
  { apply splitRuns_bytes; [|constructor].
    intros c _ Hc. unfold nonWord in Hc. now destruct (isWordByte c). }
  apply filterEmpty_bytes in H.
  eapply Forall_impl; [|exact H]. now intros t [_ Ht].
Qed.

Lemma Subtokenize_tokens (s : gostring) : Forall token (Subtokenize s).
Proof.
  unfold Subtokenize. destruct (isEmpty s); [constructor|].
  apply (fold_left_invariant (fun st => Forall token (out st)));
    [|constructor].
  intros st tok Hin H. apply addToken_tokens; [|exact H].
  pose proof (splitAlphaNum_words (ReplaceSeparators s)) as Hw.
  rewrite Forall_forall in Hw. now apply Hw.
Qed.

End TokenFacts.

(** The cases of the tokenizer's test and the split of an acronym. *)
Example subtokenize_scoped :
  nl.Subtokenize (str "QMetaObject::Call")
  = [ str "QMetaObject"; str "qmetaobject"; str "Q"; str "q"; str "Meta";
      str "meta"; str "Object"; str "object"; str "Call"; str "call" ].
Proof. vm_compute. reflexivity. Qed.

Example subtokenize_snake :
  nl.Subtokenize (str "QObject_ptr")
  = [ str "QObject_ptr"; str "qobject_ptr"; str "Q"; str "q"; str "Object";
      str "object"; str "ptr" ].
Proof. vm_compute. reflexivity. Qed.

Example camelcase_acronym :
  camelcase.Split (str "HTTPServer") = [str "HTTP"; str "Server"].
Proof. vm_compute. reflexivity. Qed.

(** C9: the tokens of "QuaGzipFile" include the identifier, its three
    camel-case parts and the lower-case form of each, and no token
    occurs twice. *)
Theorem C9_subtokenize_QuaGzipFile :
  let toks := nl.Subtokenize (str "QuaGzipFile") in
  Forall (fun t => In t toks)
    [ str "QuaGzipFile"; str "quagzipfile"; str "Qua"; str "qua";
      str "Gzip"; str "gzip"; str "File"; str "file" ]
  /\ NoDup toks.
Proof.
  assert (nl.Subtokenize (str "QuaGzipFile")
          = [ str "QuaGzipFile"; str "quagzipfile"; str "Qua"; str "qua";
              str "Gzip"; str "gzip"; str "File"; str "file" ]) as E
    by (vm_compute; reflexivity).
  cbv zeta. rewrite E. split.
  - repeat constructor; simpl; tauto.
  - repeat (constructor; [simpl; intuition discriminate|]). constructor.
Qed.

(** C10: every token that [Subtokenize] returns is non-empty and each
    of its bytes is an ASCII letter, a decimal digit or an underscore. *)
Theorem C10_subtokenize_alphabet (s : gostring) :
  Forall (fun t => t <> [] /\ forallb spec.tokenByte t = true)
    (nl.Subtokenize s).
Proof.
  eapply Forall_impl; [|apply TokenFacts.Subtokenize_tokens].
  intros t [Hne Hw]. split; [exact Hne|].
  apply forallb_forall. intros c Hc.
  rewrite <- TokenFacts.isWordByte_tokenByte.
  unfold spec.word in Hw. rewrite Forall_forall in Hw. now apply Hw.
Qed.

(** ** The docstring and snippet extractors *)

(** C8: on the five lines of the test and a symbol starting on line 4
    the docstring is the two documentation lines joined by a space. *)
Theorem C8_docstring_example :
  parser.extractDocstring (symbolAt 4) docLines
  = str "This is documentation on multiple lines".
Proof. vm_compute. reflexivity. Qed.

(** C3, as stated, fails: a symbol whose start line equals the number
    of lines gets the documentation of the last lines of the file. *)
Lemma C3_docstring_counterexample :
  let fileLines := [str "/// doc"] in
  (lsp.Line (lsp.Start (lsp.Range_ (symbolAt 1))) >= len fileLines)%Z
  /\ parser.extractDocstring (symbolAt 1) fileLines = str "doc"
  /\ parser.extractDocstring (symbolAt 1) fileLines <> [].
Proof.
  split; [vm_compute; discriminate|].
  split; [vm_compute; reflexivity|vm_compute; discriminate].
Qed.

(** C3 (amended): the docstring is empty when the start line is 0 or is
    greater than the number of lines. *)
Theorem C3_docstring_empty (symbol : lsp.DocumentSymbol)
  (fileLines : list gostring) :
  let startLine := lsp.Line (lsp.Start (lsp.Range_ symbol)) in
  (startLine = 0 \/ startLine > len fileLines)%Z ->
  parser.extractDocstring symbol fileLines = [].
Proof.
  intros startLine H. unfold parser.extractDocstring. fold startLine.
  destruct H as [H|H].
  - rewrite H. reflexivity.
  - apply Z.gtb_gt in H. rewrite H. now rewrite orb_true_r.
Qed.

Lemma C3_docstring_empty_witness :
  parser.extractDocstring (symbolAt 6) docLines = [].
Proof.
  apply (C3_docstring_empty (symbolAt 6) docLines).
  right. vm_compute. reflexivity.
Defined.

Module SnippetFacts.

Import strings.

Lemma firstn_skipn_nth {A : Type} (d : A) (l : list A) (a k : nat) :
  a + k <= List.length l ->
  firstn k (skipn a l) = map (fun i => nth i l d) (seq a k).
Proof.
  revert a k; induction l as [|x l IH]; intros a k H; simpl in H.
  - assert (k = 0) as -> by lia. now rewrite firstn_O.
  - destruct a as [|a].
    + destruct k as [|k]; [reflexivity|]. simpl. f_equal.
      rewrite <- seq_shift, map_map. simpl.
      rewrite <- (IH 0 k) by lia. reflexivity.
    + simpl skipn. rewrite <- seq_shift, map_map. simpl.
      apply IH. lia.
Qed.

Lemma subslice_linesBetween (start end_ : Z) (fileLines : list gostring) :
  spec.validRange start end_ fileLines ->
  subslice start (end_ + 1) fileLines = spec.linesBetween start end_ fileLines.
Proof.
  unfold spec.validRange, subslice, spec.linesBetween, len.
  intros (H0 & H1 & H2).
  replace (Z.to_nat (end_ + 1) - Z.to_nat start)
    with (Z.to_nat (end_ - start + 1)) by lia.
  apply firstn_skipn_nth. lia.
Qed.

Lemma Join_nil (l : list gostring) (c : ascii) (sep : gostring) :
  Join l (c :: sep) = [] <-> l = [] \/ l = [[]].
Proof.
  split.
  - destruct l as [|e [|e2 rest]]; simpl; intros H; [now left| |].
    + right. now rewrite H.
    + apply app_eq_nil in H. destruct H as [_ H]. discriminate.
  - intros [->| ->]; reflexivity.
Qed.

Lemma valid_or_invalid (start end_ : Z) (fileLines : list gostring) :
  spec.validRange start end_ fileLines \/ spec.invalidRange start end_ fileLines.
Proof. unfold spec.validRange, spec.invalidRange. lia. Qed.

Lemma extractSnippet_valid (rng : lsp.Range) (fileLines : list gostring) :
  spec.validRange (lsp.Line (lsp.Start rng)) (lsp.Line (lsp.End_ rng)) fileLines ->
  parser.extractSnippet rng fileLines
  = Join (spec.linesBetween (lsp.Line (lsp.Start rng))
            (lsp.Line (lsp.End_ rng)) fileLines) nl.newline.
Proof.
  intros H. unfold parser.extractSnippet.
  rewrite (subslice_linesBetween _ _ _ H).
  destruct H as (H0 & H1 & H2).
  replace (lsp.Line (lsp.Start rng) <? 0)%Z with false by (symmetry; lia).
  replace (lsp.Line (lsp.End_ rng) >=? len fileLines)%Z with false
    by (symmetry; lia).
  replace (lsp.Line (lsp.Start rng) >? lsp.Line (lsp.End_ rng))%Z with false
    by (symmetry; lia).
  reflexivity.
Qed.

Lemma extractSnippet_invalid (rng : lsp.Range) (fileLines : list gostring) :
  spec.invalidRange (lsp.Line (lsp.Start rng)) (lsp.Line (lsp.End_ rng)) fileLines ->
  parser.extractSnippet rng fileLines = [].
Proof.
  intros H. unfold parser.extractSnippet.
  destruct (lsp.Line (lsp.Start rng) <? 0)%Z eqn:E1; [reflexivity|].
  destruct (lsp.Line (lsp.End_ rng) >=? len fileLines)%Z eqn:E2; [reflexivity|].
  destruct (lsp.Line (lsp.Start rng) >? lsp.Line (lsp.End_ rng))%Z eqn:E3;
    [reflexivity|].
  unfold spec.invalidRange in H. lia.
Qed.

End SnippetFacts.

(** C7, as stated, fails: the range of one line that is empty is valid
    and the snippet is the empty string all the same. *)
Lemma C7_snippet_counterexample :
  spec.validRange 0 0 [emptyLine]
  /\ ~ spec.invalidRange 0 0 [emptyLine]
  /\ parser.extractSnippet (lineRange 0 0) [emptyLine] = [].
Proof.
  unfold spec.validRange, spec.invalidRange, len. simpl.
  repeat split; lia.
Qed.

(** C7 (amended): for a valid range the snippet is the lines from start
    to end joined by newlines; for an invalid range (start negative, end
    at or beyond the number of lines, or start greater than end) it is
    empty; and it is empty only for an invalid range or for the range of
    a single line that is empty. *)
Theorem C7_snippet (rng : lsp.Range) (fileLines : list gostring) :
  let start := lsp.Line (lsp.Start rng) in
  let end_ := lsp.Line (lsp.End_ rng) in
  (spec.validRange start end_ fileLines ->
   parser.extractSnippet rng fileLines
   = strings.Join (spec.linesBetween start end_ fileLines) nl.newline)
  /\ (spec.invalidRange start end_ fileLines ->
      parser.extractSnippet rng fileLines = [])
  /\ (parser.extractSnippet rng fileLines = [] <->
      spec.invalidRange start end_ fileLines
      \/ (start = end_ /\ nth (Z.to_nat start) fileLines [] = [])).
Proof.
  intros start end_.
  split; [apply SnippetFacts.extractSnippet_valid|].
  split; [apply SnippetFacts.extractSnippet_invalid|].
  destruct (SnippetFacts.valid_or_invalid start end_ fileLines) as [Hv|Hi].
  - rewrite (SnippetFacts.extractSnippet_valid _ _ Hv). fold start end_.
    change nl.newline with ["010"%char]. rewrite SnippetFacts.Join_nil.
    unfold spec.linesBetween.
    destruct Hv as (H0 & H1 & H2). unfold spec.invalidRange.
    destruct (Z.to_nat (end_ - start + 1)) as [|[|k]] eqn:E; simpl.
    + lia.
    + assert (start = end_) by lia. split.
      * intros [H'|H']; [discriminate|]. right. split; [assumption|].
        injection H' as H'. exact H'.
      * intros [H'|[_ H']]; [lia|]. right. now rewrite H'.
    + split.
      * intros [H'|H']; discriminate.
      * intros [H'|[H' _]]; lia.
  - rewrite (SnippetFacts.extractSnippet_invalid _ _ Hi). tauto.
Qed.

Lemma C7_snippet_witness :
  parser.extractSnippet (lineRange 1 2) docLines
  = str "/// This is documentation" ++ nl.newline ++ str "/// on multiple lines".
Proof.
  apply (proj1 (C7_snippet (lineRange 1 2) docLines)).
  unfold spec.validRange, len. simpl. lia.
Defined.

(** ** The symbol-tree flattener *)

Module FlattenFacts.

(** Induction on a symbol tree, the children being covered. *)
Lemma DocumentSymbol_induction (P : lsp.DocumentSymbol -> Prop) :
  (forall name detail kind rng children,
      Forall P children ->
      P (lsp.mkDocumentSymbol name detail kind rng children)) ->
  forall n, P n.
Proof.
  intros H. fix IH 1. intros [name detail kind rng children].
  apply H. induction children as [|c cs IHcs]; constructor.
  - apply IH.
  - exact IHcs.
Qed.

(** Appending to a slice a folded sequence of appends. *)
Lemma fold_left_elems {A B : Type} (F : slice A -> B -> slice A) (l : list B) :
  Forall (fun x => forall acc, elems (F acc x) = elems acc ++ elems (F nilSlice x)) l ->
  forall acc,
    elems (fold_left F l acc) = elems acc ++ elems (fold_left F l nilSlice).
Proof.
  induction 1 as [|x l Hx Hl IH]; intros acc; simpl.
  - now rewrite app_nil_r.
  - rewrite IH, (IH (F nilSlice x)), Hx. now rewrite app_assoc.
Qed.

Section Flatten.

Variable K : lsp.SymbolKinds.
Variable filepath_Base : gostring -> gostring.
Variable filepath_Dir : gostring -> gostring.
Variable filePath : gostring.
Variable fileLines : list gostring.

Local Abbreviation processSymbol :=
  (fun symbol parent chunks =>
     parser.processSymbol K filepath_Base filepath_Dir symbol filePath
       fileLines parent chunks).
Local Abbreviation chunksOf := (spec.chunksOf K filepath_Base filepath_Dir filePath fileLines).
Local Abbreviation ownChunk := (spec.ownChunk K filepath_Base filepath_Dir filePath fileLines).
Local Abbreviation chunkAt := (spec.chunkAt K filepath_Base filepath_Dir filePath fileLines).

Lemma shouldExtract_extractable (n : lsp.DocumentSymbol) :
  parser.shouldExtractSymbol K (lsp.Kind n) = spec.extractable K n.
Proof.
  unfold parser.shouldExtractSymbol, spec.extractable, spec.extractableKinds.
  simpl. rewrite orb_false_r, !orb_assoc. reflexivity.
Qed.

Lemma isClassOrStruct_classOrStruct (n : lsp.DocumentSymbol) :
  parser.isClassOrStruct K (lsp.Kind n) = spec.classOrStruct K n.
Proof.
  unfold parser.isClassOrStruct, spec.classOrStruct. simpl.
  now rewrite orb_false_r.
Qed.

Lemma classOrStruct_extractable (n : lsp.DocumentSymbol) :
  spec.classOrStruct K n = true -> spec.extractable K n = true.
Proof.
  unfold spec.classOrStruct, spec.extractable, spec.extractableKinds. simpl.
  intros H. apply orb_true_iff in H. destruct H as [H|H].
  - rewrite H. now rewrite !orb_true_r.
  - rewrite orb_false_r in H. rewrite H. now rewrite !orb_true_r.
Qed.

(** One step of [processSymbol]: the node's own chunk is appended, then
    the children are processed under the context they inherit. *)
Lemma processSymbol_step (n : lsp.DocumentSymbol) (parent : gostring)
  (acc : slice parser.SemanticChunk) :
  processSymbol n parent acc
  = fold_left
      (fun chunks child => processSymbol child (spec.childContext K parent n) chunks)
      (lsp.Children n)
      (if spec.extractable K n
       then append acc (parser.newChunk K filepath_Base filepath_Dir n filePath
                          fileLines parent)
       else acc).
Proof.
  destruct n as [name detail kind rng children]. simpl.
  set (n := lsp.mkDocumentSymbol name detail kind rng children).
  change kind with (lsp.Kind n).
  rewrite shouldExtract_extractable, isClassOrStruct_classOrStruct.
  unfold spec.childContext.
  destruct (spec.classOrStruct K n) eqn:Ec.
  - now rewrite (classOrStruct_extractable n Ec).
  - now rewrite andb_false_r.
Qed.

(** What [processSymbol] appends does not depend on the chunks that
    are already there. *)
Lemma processSymbol_acc (n : lsp.DocumentSymbol) :
  forall parent acc,
    elems (processSymbol n parent acc)
    = elems acc ++ elems (processSymbol n parent nilSlice).
Proof.
  induction n as [name detail kind rng children IH]
    using DocumentSymbol_induction.
  intros parent acc. rewrite !processSymbol_step.
  set (n := lsp.mkDocumentSymbol name detail kind rng children).
  simpl lsp.Children.
  assert (Forall (fun x => forall acc0,
            elems (processSymbol x (spec.childContext K parent n) acc0)
            = elems acc0
              ++ elems (processSymbol x (spec.childContext K parent n) nilSlice))
            children) as HF.
  { eapply Forall_impl; [|exact IH]. intros c Hc acc0. apply Hc. }
  rewrite (fold_left_elems _ children HF).
  rewrite (fold_left_elems _ children HF
             (if spec.extractable K n then _ else _)).
  destruct (spec.extractable K n); simpl.
  - now rewrite <- app_assoc.
  - reflexivity.
Qed.

Lemma chunksOf_app (parent : gostring) (l1 l2 : list lsp.DocumentSymbol) :
  chunksOf parent (l1 ++ l2) = chunksOf parent l1 ++ chunksOf parent l2.
Proof.
  unfold spec.chunksOf. rewrite fold_left_app.
  apply (fold_left_elems (fun chunks symbol => processSymbol symbol parent chunks)).
  apply Forall_forall. intros x _ acc. apply processSymbol_acc.
Qed.

Lemma chunksOf_node (parent : gostring) (n : lsp.DocumentSymbol) :
  chunksOf parent [n]
  = ownChunk parent n ++ chunksOf (spec.childContext K parent n) (lsp.Children n).
Proof.
  unfold spec.chunksOf at 1. simpl fold_left. rewrite processSymbol_step.
  rewrite (fold_left_elems
             (fun chunks child =>
                processSymbol child (spec.childContext K parent n) chunks)).
  - unfold spec.ownChunk, spec.chunksOf.
    now destruct (spec.extractable K n).
  - apply Forall_forall. intros x _ acc. apply processSymbol_acc.
Qed.

Lemma chunksOf_cons (parent : gostring) (n : lsp.DocumentSymbol)
  (rest : list lsp.DocumentSymbol) :
  chunksOf parent (n :: rest)
  = ownChunk parent n
    ++ chunksOf (spec.childContext K parent n) (lsp.Children n)
    ++ chunksOf parent rest.
Proof.
  change (n :: rest) with ([n] ++ rest).
  now rewrite chunksOf_app, chunksOf_node, <- app_assoc.
Qed.

Lemma nearestStruct_cons (n : lsp.DocumentSymbol)
  (ancestors : list lsp.DocumentSymbol) :
  spec.nearestStruct K (n :: ancestors)
  = spec.childContext K (spec.nearestStruct K ancestors) n.
Proof.
  unfold spec.nearestStruct, spec.childContext. simpl.
  now destruct (spec.classOrStruct K n).
Qed.

Local Abbreviation ext := (fun e : list lsp.DocumentSymbol * lsp.DocumentSymbol =>
                   spec.extractable K (snd e)).

(** The chunks of a tree are those of its extractable nodes in
    pre-order. *)
Lemma chunksOf_preorderFrom (n : lsp.DocumentSymbol) :
  forall ancestors,
    chunksOf (spec.nearestStruct K ancestors) [n]
    = map chunkAt (filter ext (spec.preorderFrom ancestors n)).
Proof.
  induction n as [name detail kind rng children IH]
    using DocumentSymbol_induction.
  intros ancestors. rewrite chunksOf_node.
  set (n := lsp.mkDocumentSymbol name detail kind rng children) in *.
  simpl spec.preorderFrom. fold n. simpl lsp.Children. simpl filter.
  rewrite <- nearestStruct_cons.
  assert (chunksOf (spec.nearestStruct K (n :: ancestors)) children
          = map chunkAt
              (filter ext
                 (flat_map (spec.preorderFrom (n :: ancestors)) children))) as E.
  { generalize (n :: ancestors) as anc. intros anc.
    induction IH as [|c cs Hc Hcs IHcs]; [reflexivity|].
    change (c :: cs) with ([c] ++ cs).
    rewrite chunksOf_app, Hc, IHcs. simpl flat_map.
    now rewrite filter_app, map_app. }
  rewrite E. unfold spec.ownChunk.
  destruct (spec.extractable K n); reflexivity.
Qed.

Lemma chunksOf_preorder (symbols : list lsp.DocumentSymbol) :
  chunksOf [] symbols = map chunkAt (filter ext (spec.preorder symbols)).
Proof.
  unfold spec.preorder.
  induction symbols as [|n rest IH]; [reflexivity|].
  change (n :: rest) with ([n] ++ rest).
  rewrite chunksOf_app, IH.
  change (@nil ascii) with (spec.nearestStruct K []) at 1.
  rewrite chunksOf_preorderFrom. simpl flat_map.
  now rewrite filter_app, map_app.
Qed.

(** The extractable nodes of a tree, counted along the pre-order. *)
Lemma count_preorderFrom (n : lsp.DocumentSymbol) :
  forall ancestors,
    List.length (filter ext (spec.preorderFrom ancestors n))
    = spec.countExtractable K n.
Proof.
  induction n as [name detail kind rng children IH]
    using DocumentSymbol_induction.
  intros ancestors.
  set (n := lsp.mkDocumentSymbol name detail kind rng children) in *.
  simpl spec.preorderFrom. fold n. simpl spec.countExtractable. fold n.
  assert (List.length
            (filter ext (flat_map (spec.preorderFrom (n :: ancestors)) children))
          = list_sum (map (spec.countExtractable K) children)) as E.
  { generalize (n :: ancestors) as anc. intros anc.
    induction IH as [|c cs Hc Hcs IHcs]; [reflexivity|].
    simpl. now rewrite filter_app, length_app, Hc, IHcs. }
  simpl filter. destruct (spec.extractable K n); simpl; now rewrite E.
Qed.

Lemma count_preorder (symbols : list lsp.DocumentSymbol) :
  List.length (filter ext (spec.preorder symbols))
  = list_sum (map (spec.countExtractable K) symbols).
Proof.
  unfold spec.preorder.
  induction symbols as [|n rest IH]; [reflexivity|].
  simpl. now rewrite filter_app, length_app, count_preorderFrom, IH.
Qed.

(** Where an entry of a concatenation of lists comes from. *)
Lemma flat_map_split {A B : Type} (F : A -> list B) (l : list A) (e : B) :
  forall l2 l3,
    flat_map F l = l2 ++ e :: l3 ->
    exists cs1 c cs2 m2 m3,
      l = cs1 ++ c :: cs2 /\ F c = m2 ++ e :: m3
      /\ l2 = flat_map F cs1 ++ m2 /\ l3 = m3 ++ flat_map F cs2.
Proof.
  induction l as [|x l IH]; intros l2 l3 H; simpl in H.
  - destruct l2; discriminate.
  - apply app_eq_app in H. destruct H as (m & [[Hx Hm]|[Hl2 Hm]]).
    + destruct m as [|e' m].
      * simpl in Hm. symmetry in Hm. rewrite app_nil_r in Hx.
        destruct (IH [] l3 Hm) as (cs1 & c & cs2 & m2 & m3 & -> & Hc & E2 & ->).
        exists (x :: cs1), c, cs2, m2, m3. simpl.
        repeat split; trivial. now rewrite <- app_assoc, <- E2, app_nil_r.
      * injection Hm as -> ->.
        exists [], x, l, l2, m. now repeat split.
    + destruct (IH m l3 Hm) as (cs1 & c & cs2 & m2 & m3 & -> & Hc & -> & ->).
      exists (x :: cs1), c, cs2, m2, m3. simpl.
      repeat split; trivial. now rewrite <- app_assoc.
Qed.

(** In the pre-order of a tree every ancestor of a node that lies in
    the tree is listed before the node. *)
Lemma preorderFrom_ancestor_first (n : lsp.DocumentSymbol) :
  forall outer before ancestors d after,
    spec.preorderFrom outer n = before ++ (ancestors, d) :: after ->
    forall a, In a ancestors ->
      In a outer
      \/ exists ancestors_a b1 b2, before = b1 ++ (ancestors_a, a) :: b2.
Proof.
  induction n as [name detail kind rng children IH]
    using DocumentSymbol_induction.
  intros outer before ancestors d after.
  set (n := lsp.mkDocumentSymbol name detail kind rng children) in *.
  simpl spec.preorderFrom. fold n. simpl lsp.Children.
  intros H a Ha. destruct before as [|e before].
  - injection H as -> _ _. now left.
  - injection H as <- H.
    apply flat_map_split in H.
    destruct H as (cs1 & c & cs2 & m2 & m3 & -> & Hc & -> & _).
    rewrite Forall_forall in IH.
    assert (In c (cs1 ++ c :: cs2)) as Hin by (apply in_or_app; right; now left).
    destruct (IH c Hin _ _ _ _ _ Hc a Ha) as [[<-|Ho]|(aa & b1 & b2 & ->)].
    + right. now exists outer, [], (flat_map (spec.preorderFrom (n :: outer)) cs1 ++ m2).
    + now left.
    + right.
      exists aa, ((outer, n) :: flat_map (spec.preorderFrom (n :: outer)) cs1 ++ b1), b2.
      simpl. now rewrite <- app_assoc.
Qed.

Lemma preorder_ancestor_first (symbols : list lsp.DocumentSymbol)
  (before after : list (list lsp.DocumentSymbol * lsp.DocumentSymbol))
  (ancestors : list lsp.DocumentSymbol) (d a : lsp.DocumentSymbol) :
  spec.preorder symbols = before ++ (ancestors, d) :: after ->
  In a ancestors ->
  exists ancestors_a b1 b2, before = b1 ++ (ancestors_a, a) :: b2.
Proof.
  unfold spec.preorder. intros H Ha.
  apply flat_map_split in H.
  destruct H as (cs1 & c & cs2 & m2 & m3 & -> & Hc & -> & _).
  destruct (preorderFrom_ancestor_first c _ _ _ _ _ Hc a Ha)
    as [[]|(aa & b1 & b2 & ->)].
  exists aa, (flat_map (spec.preorderFrom []) cs1 ++ b1), b2.
  now rewrite <- app_assoc.
Qed.

(** A tree without extractable node leaves the nil slice as it is. *)
Lemma processSymbol_nil (n : lsp.DocumentSymbol) :
  forall parent,
    spec.countExtractable K n = 0 -> processSymbol n parent nilSlice = nilSlice.
Proof.
  induction n as [name detail kind rng children IH]
    using DocumentSymbol_induction.
  intros parent. rewrite processSymbol_step.
  set (n := lsp.mkDocumentSymbol name detail kind rng children) in *.
  simpl spec.countExtractable. fold n. simpl lsp.Children.
  destruct (spec.extractable K n); [discriminate|]. simpl.
  generalize (spec.childContext K parent n) as ctx. intros ctx.
  induction IH as [|c cs Hc Hcs IHcs]; [reflexivity|].
  simpl. intros H. rewrite Hc by lia. apply IHcs. lia.
Qed.

Lemma fold_processSymbol_nil (symbols : list lsp.DocumentSymbol)
  (parent : gostring) :
  list_sum (map (spec.countExtractable K) symbols) = 0 ->
  fold_left (fun chunks symbol => processSymbol symbol parent chunks)
    symbols nilSlice = nilSlice.
Proof.
  induction symbols as [|n rest IH]; [reflexivity|].
  simpl. intros H. rewrite processSymbol_nil by lia. apply IH. lia.
Qed.

End Flatten.

End FlattenFacts.

(** C4: the flattener returns as many chunks as the symbol trees have
    nodes, at any depth, of an extractable kind, one for each such node:
    a node of another kind gives no chunk and the nodes below it are
    still reached. *)
Theorem C4_chunk_count (K : lsp.SymbolKinds)
  (filepath_Base filepath_Dir : gostring -> gostring)
  (readFileLines : gostring -> list gostring)
  (symbols : list lsp.DocumentSymbol) (filePath : gostring) :
  let chunks :=
    elems (parser.ConvertSymbolsToChunks K filepath_Base filepath_Dir
             readFileLines symbols filePath) in
  List.length chunks = list_sum (map (spec.countExtractable K) symbols)
  /\ map parser.Name chunks
     = map (fun e => lsp.Name (snd e))
         (filter (fun e => spec.extractable K (snd e)) (spec.preorder symbols)).
Proof.
  intros chunks.
  assert (chunks
          = map (spec.chunkAt K filepath_Base filepath_Dir filePath
                   (readFileLines filePath))
              (filter (fun e => spec.extractable K (snd e))
                 (spec.preorder symbols))) as E
    by apply FlattenFacts.chunksOf_preorder.
  rewrite E. split.
  - rewrite length_map. apply FlattenFacts.count_preorder.
  - rewrite map_map. reflexivity.
Qed.

(** C5: the struct name of every chunk is the name of the nearest
    ancestor of its node whose kind is Class or Struct, and is empty
    when the node has no such ancestor; ancestors of other kinds are
    passed over. *)
Theorem C5_struct_name (K : lsp.SymbolKinds)
  (filepath_Base filepath_Dir : gostring -> gostring)
  (readFileLines : gostring -> list gostring)
  (symbols : list lsp.DocumentSymbol) (filePath : gostring) :
  map (fun c => (parser.Name c, parser.StructName (parser.Context c)))
    (elems (parser.ConvertSymbolsToChunks K filepath_Base filepath_Dir
              readFileLines symbols filePath))
  = map (fun e => (lsp.Name (snd e), spec.nearestStruct K (fst e)))
      (filter (fun e => spec.extractable K (snd e)) (spec.preorder symbols)).
Proof.
  change (elems (parser.ConvertSymbolsToChunks K filepath_Base filepath_Dir
                   readFileLines symbols filePath))
    with (spec.chunksOf K filepath_Base filepath_Dir filePath
            (readFileLines filePath) [] symbols).
  rewrite FlattenFacts.chunksOf_preorder, map_map. reflexivity.
Qed.

(** C6: the chunks come in pre-order.  The list is that of the
    extractable nodes in pre-order; the chunk of a node stands before
    the chunk of each of its descendants; and for every list of sibling
    subtrees, at any depth, the chunk of the first node comes first,
    then the chunks of its descendants, then those of the following
    siblings in their order. *)
Theorem C6_preorder (K : lsp.SymbolKinds)
  (filepath_Base filepath_Dir : gostring -> gostring)
  (readFileLines : gostring -> list gostring)
  (symbols : list lsp.DocumentSymbol) (filePath : gostring) :
  let fileLines := readFileLines filePath in
  let chunks :=
    elems (parser.ConvertSymbolsToChunks K filepath_Base filepath_Dir
             readFileLines symbols filePath) in
  let chunksOf := spec.chunksOf K filepath_Base filepath_Dir filePath fileLines in
  let ownChunk := spec.ownChunk K filepath_Base filepath_Dir filePath fileLines in
  let chunkAt := spec.chunkAt K filepath_Base filepath_Dir filePath fileLines in
  let chunksAt l := map chunkAt (filter (fun e => spec.extractable K (snd e)) l) in
  chunks = chunksAt (spec.preorder symbols)
  /\ (forall before ancestors d after a,
        spec.preorder symbols = before ++ (ancestors, d) :: after ->
        In a ancestors ->
        spec.extractable K a = true -> spec.extractable K d = true ->
        exists ancestors_a c1 c2,
          chunksAt before = c1 ++ chunkAt (ancestors_a, a) :: c2
          /\ chunks
             = c1 ++ chunkAt (ancestors_a, a) :: c2
               ++ chunkAt (ancestors, d) :: chunksAt after)
  /\ chunks = chunksOf [] symbols
  /\ (forall parent, chunksOf parent [] = [])
  /\ (forall parent n rest,
        chunksOf parent (n :: rest)
        = ownChunk parent n
          ++ chunksOf (spec.childContext K parent n) (lsp.Children n)
          ++ chunksOf parent rest).
Proof.
  intros fileLines chunks chunksOf ownChunk chunkAt chunksAt.
  assert (chunks = chunksAt (spec.preorder symbols)) as E
    by apply FlattenFacts.chunksOf_preorder.
  split; [exact E|].
  split.
  { intros before ancestors d after a H Ha Hea Hed.
    destruct (FlattenFacts.preorder_ancestor_first _ _ _ _ _ _ H Ha)
      as (aa & b1 & b2 & ->).
    exists aa, (chunksAt b1), (chunksAt b2).
    assert (chunksAt (b1 ++ (aa, a) :: b2)
            = chunksAt b1 ++ chunkAt (aa, a) :: chunksAt b2) as E1.
    { unfold chunksAt. rewrite filter_app. simpl. rewrite Hea.
      now rewrite map_app. }
    split; [exact E1|].
    rewrite E, H. unfold chunksAt at 1. rewrite filter_app. simpl.
    rewrite Hed, map_app. fold (chunksAt (b1 ++ (aa, a) :: b2)).
    rewrite E1. simpl. now rewrite <- app_assoc. }
  split; [reflexivity|].
  split; [reflexivity|].
  intros parent n rest. apply FlattenFacts.chunksOf_cons.
Qed.

Lemma C6_preorder_witness :
  let chunkAt := spec.chunkAt lspKinds samePath samePath (str "test.cpp") [] in
  exists ancestors_a c1 c2,
    elems (parser.ConvertSymbolsToChunks lspKinds samePath samePath noLines
             testSymbols (str "test.cpp"))
    = c1 ++ chunkAt (ancestors_a, testClass) :: c2
      ++ chunkAt ([testClass], leaf "memberMethod" 6 13) :: [].
Proof.
  intros chunkAt.
  destruct (proj1 (proj2 (C6_preorder lspKinds samePath samePath noLines
                            testSymbols (str "test.cpp")))
              [ ([], leaf "testFunction" 12 4); ([], testClass);
                ([testClass], leaf "TestClass" 9 10) ]
              [testClass] (leaf "memberMethod" 6 13)
              [ ([testClass], leaf "count" 8 14) ]
              testClass)
    as (aa & c1 & c2 & _ & H).
  - reflexivity.
  - left. reflexivity.
  - reflexivity.
  - reflexivity.
  - exists aa, c1, c2. exact H.
Defined.

(** The chunks of the symbols of the test, by name and struct name: the
    field of the class gives no chunk. *)
Example flatten_testSymbols :
  map (fun c => (parser.Name c, parser.StructName (parser.Context c)))
    (elems (parser.ConvertSymbolsToChunks lspKinds samePath samePath noLines
              testSymbols (str "test.cpp")))
  = [ (str "testFunction", []); (str "TestClass", []);
      (str "TestClass", str "TestClass");
      (str "memberMethod", str "TestClass") ].
Proof. vm_compute. reflexivity. Qed.

(** ** The JSON writer *)

(** C2 fails on the code: when the trees have no extractable node the
    flattener returns the nil slice, for which [WriteJSON] writes null;
    the empty slice of the writer's test gives the empty array. *)
Theorem C2_nil_chunks_write_null (K : lsp.SymbolKinds)
  (filepath_Base filepath_Dir : gostring -> gostring)
  (readFileLines : gostring -> list gostring)
  (symbols : list lsp.DocumentSymbol) (filePath outputPath : gostring)
  (marshalElem : parser.SemanticChunk -> gostring) :
  list_sum (map (spec.countExtractable K) symbols) = 0 ->
  output.WriteJSON parser.SemanticChunk marshalElem memfs.FS filepath_Dir
    memfs.MkdirAll memfs.WriteFile
    (parser.ConvertSymbolsToChunks K filepath_Base filepath_Dir readFileLines
       symbols filePath)
    outputPath []
  = (None, [(outputPath, str "null")])
  /\ output.WriteJSON parser.SemanticChunk marshalElem memfs.FS filepath_Dir
    memfs.MkdirAll memfs.WriteFile
       (mkSlice []) outputPath []
     = (None, [(outputPath, str "[]")]).
Proof.
  intros H. split; [|reflexivity].
  unfold parser.ConvertSymbolsToChunks.
  rewrite FlattenFacts.fold_processSymbol_nil by exact H.
  reflexivity.
Qed.

Lemma C2_nil_chunks_write_null_witness :
  output.WriteJSON parser.SemanticChunk noEncoding memfs.FS samePath
    memfs.MkdirAll memfs.WriteFile
    (parser.ConvertSymbolsToChunks lspKinds samePath samePath noLines
       variableOnly (str "config.cpp"))
    (str "chunks.json") []
  = (None, [(str "chunks.json", str "null")]).
Proof.
  apply (C2_nil_chunks_write_null lspKinds samePath samePath noLines
           variableOnly (str "config.cpp") (str "chunks.json") noEncoding).
  reflexivity.
Defined.

(** * Further properties of the code *)

(** ** Words of a string *)

Module WordFacts.

Import strings nl spec.

(** The non-empty pieces between the runs of bytes that are not word
    bytes, the piece under construction being [cur] (reversed). *)
Local Abbreviation fw s cur := (filterEmpty (regexp.splitRuns nonWord s cur false)).

Lemma splitRuns_prev (s : gostring) :
  filterEmpty (regexp.splitRuns nonWord s [] true) = fw s [].
Proof.
  destruct s as [|c s]; simpl; [reflexivity|].
  destruct (nonWord c); reflexivity.
Qed.

Lemma fw_sep (c : ascii) (r cur : gostring) :
  nonWord c = true -> fw (c :: r) cur = filterEmpty [rev cur] ++ fw r [].
Proof.
  intros H. simpl regexp.splitRuns. rewrite H.
  change (rev cur :: regexp.splitRuns nonWord r [] true)
    with ([rev cur] ++ regexp.splitRuns nonWord r [] true).
  unfold filterEmpty. rewrite filter_app.
  fold (filterEmpty (regexp.splitRuns nonWord r [] true)).
  now rewrite splitRuns_prev.
Qed.

Lemma fw_word (c : ascii) (r cur : gostring) :
  nonWord c = false -> fw (c :: r) cur = fw r (c :: cur).
Proof. intros H. simpl regexp.splitRuns. now rewrite H. Qed.

(** A separator cuts the string in two. *)
Lemma fw_cut (a b cur : gostring) (c : ascii) :
  nonWord c = true -> fw (a ++ c :: b) cur = fw a cur ++ fw b [].
Proof.
  intros Hc. revert cur; induction a as [|x a IH]; intros cur.
  - change ([] ++ c :: b) with (c :: b). now rewrite fw_sep.
  - change ((x :: a) ++ c :: b) with (x :: (a ++ c :: b)).
    destruct (nonWord x) eqn:E.
    + rewrite !fw_sep by assumption. rewrite IH. now rewrite app_assoc.
    + rewrite !fw_word by assumption. apply IH.
Qed.

Lemma fw_nonword (v cur : gostring) :
  Forall (fun c => nonWord c = true) v -> fw v cur = filterEmpty [rev cur].
Proof.
  intros H. revert cur; induction H as [|x v Hx Hv IH]; intros cur.
  - reflexivity.
  - rewrite fw_sep by assumption. rewrite IH. simpl. now rewrite app_nil_r.
Qed.

Lemma fw_nonword_before (u t : gostring) :
  Forall (fun c => nonWord c = true) u -> fw (u ++ t) [] = fw t [].
Proof.
  induction 1 as [|x u Hx Hu IH]; [reflexivity|].
  change ((x :: u) ++ t) with (x :: (u ++ t)).
  rewrite fw_sep by assumption. exact IH.
Qed.

Lemma fw_nonword_after (t v cur : gostring) :
  Forall (fun c => nonWord c = true) v -> fw (t ++ v) cur = fw t cur.
Proof.
  intros Hv. revert cur; induction t as [|x t IH]; intros cur.
  - change ([] ++ v) with v. rewrite fw_nonword by assumption. reflexivity.
  - change ((x :: t) ++ v) with (x :: (t ++ v)). destruct (nonWord x) eqn:E.
    + rewrite !fw_sep by assumption. now rewrite IH.
    + rewrite !fw_word by assumption. apply IH.
Qed.

Lemma fw_all_word (w cur : gostring) :
  word w -> fw w cur = filterEmpty [rev cur ++ w].
Proof.
  intros H. revert cur; induction H as [|x w Hx Hw IH]; intros cur.
  - simpl. now rewrite app_nil_r.
  - rewrite fw_word by (unfold nonWord; now rewrite Hx).
    rewrite IH. simpl rev. now rewrite <- app_assoc.
Qed.

Lemma splitAlphaNum_token (w : gostring) : token w -> splitAlphaNum w = [w].
Proof.
  intros [Hne Hw]. unfold splitAlphaNum, regexp.Split.
  rewrite (fw_all_word w [] Hw). simpl. now destruct w.
Qed.

(** Splitting a list of tokens joined by spaces gives the tokens back. *)
Lemma splitAlphaNum_Join (ws : list gostring) :
  Forall token ws -> splitAlphaNum (Join ws (str " ")) = ws.
Proof.
  unfold splitAlphaNum, regexp.Split.
  induction 1 as [|w ws Hw Hws IH]; [reflexivity|].
  destruct ws as [|w2 ws].
  - now apply splitAlphaNum_token.
  - change (Join (w :: w2 :: ws) (str " "))
      with (w ++ " "%char :: Join (w2 :: ws) (str " ")).
    rewrite fw_cut by reflexivity. rewrite IH.
    fold (regexp.Split nonWord w). fold (splitAlphaNum w).
    now rewrite (splitAlphaNum_token w Hw).
Qed.

Lemma splitAlphaNum_tokens (s : gostring) : Forall token (splitAlphaNum s).
Proof.
  unfold splitAlphaNum.
  apply TokenFacts.filterEmpty_bytes.
  apply TokenFacts.splitRuns_bytes; [|constructor].
  intros c _ Hc. unfold nonWord in Hc. now destruct (isWordByte c).
Qed.

(** The separators [ReplaceSeparators] rewrites are no word bytes, so
    the words stay as they are. *)
Lemma fw_ReplaceSeparators (s : gostring) :
  (forall cur, fw (ReplaceSeparators s) cur = fw s cur)
  /\ (forall c cur, fw (ReplaceSeparators (c :: s)) cur = fw (c :: s) cur).
Proof.
  induction s as [|d s [IH1 IH2]].
  - split; [reflexivity|]. intros c cur. simpl ReplaceSeparators.
    destruct (Ascii.eqb c ".") eqn:E; [|reflexivity].
    apply Ascii.eqb_eq in E. subst c. reflexivity.
  - split; [apply IH2|]. intros c cur.
    change (ReplaceSeparators (c :: d :: s))
      with (if (Ascii.eqb c ":" && Ascii.eqb d ":")
               || (Ascii.eqb c "-" && Ascii.eqb d ">")
            then " "%char :: ReplaceSeparators s
            else if Ascii.eqb c "." then " "%char :: ReplaceSeparators (d :: s)
                 else c :: ReplaceSeparators (d :: s)).
    destruct ((Ascii.eqb c ":" && Ascii.eqb d ":")
              || (Ascii.eqb c "-" && Ascii.eqb d ">")) eqn:E.
    + assert (nonWord c = true /\ nonWord d = true) as [Hc Hd].
      { apply orb_true_iff in E.
        destruct E as [E|E]; apply andb_true_iff in E; destruct E as [E1 E2];
          apply Ascii.eqb_eq in E1, E2; subst; split; reflexivity. }
      rewrite (fw_sep c) by assumption. rewrite (fw_sep d) by assumption.
      rewrite fw_sep by reflexivity. rewrite IH1. simpl. reflexivity.
    + destruct (Ascii.eqb c ".") eqn:E2.
      * apply Ascii.eqb_eq in E2. subst c.
        rewrite !fw_sep by reflexivity. now rewrite IH2.
      * destruct (nonWord c) eqn:E3.
        -- rewrite !fw_sep by assumption. now rewrite IH2.
        -- rewrite !fw_word by assumption. apply IH2.
Qed.

Lemma splitAlphaNum_ReplaceSeparators (s : gostring) :
  splitAlphaNum (ReplaceSeparators s) = splitAlphaNum s.
Proof. apply (proj1 (fw_ReplaceSeparators s)). Qed.

End WordFacts.

(** ** White space and words *)

Module SpaceFacts.

Import strings nl spec.

Lemma spaceRunes_nonword (p : gostring) :
  In p spaceRunes -> Forall (fun c => nonWord c = true) p.
Proof.
  intros H.
  repeat (destruct H as [<-|H]; [repeat constructor|]). destruct H.
Qed.

Lemma revRunes_nonword (p : gostring) :
  In p revRunes -> Forall (fun c => nonWord c = true) p.
Proof.
  intros H.
  repeat (destruct H as [<-|H]; [repeat constructor|]). destruct H.
Qed.

(** What [trimRunes] drops is made of bytes of the runes. *)
Lemma trimRunes_dropped (P : ascii -> Prop) (runes : list gostring) :
  (forall p, In p runes -> Forall P p) ->
  forall n s, exists u, s = u ++ trimRunes runes n s /\ Forall P u.
Proof.
  intros HP. induction n as [|n IH]; intros s; simpl.
  - exists []. now split.
  - destruct (dropRune runes s) eqn:E; [|exists []; now split].
    apply TrimFacts.dropRune_inv in E. destruct E as (p & Hp & ->).
    destruct (IH g) as (u & Hu & HPu). exists (p ++ u). split.
    + rewrite <- app_assoc. now rewrite <- Hu.
    + apply Forall_app. split; [now apply HP|assumption].
Qed.

(** [TrimSpace] takes bytes that are no word bytes off the two ends. *)
Lemma TrimSpace_dropped (s : gostring) :
  exists u v,
    s = u ++ TrimSpace s ++ v
    /\ Forall (fun c => nonWord c = true) u
    /\ Forall (fun c => nonWord c = true) v.
Proof.
  unfold TrimSpace, TrimRightSpace.
  destruct (trimRunes_dropped _ spaceRunes spaceRunes_nonword
              (List.length s) s) as (u & Hu & HPu).
  fold (TrimLeftSpace s) in *. set (a := TrimLeftSpace s) in *.
  destruct (trimRunes_dropped _ revRunes revRunes_nonword
              (List.length a) (rev a)) as (v & Hv & HPv).
  exists u, (rev v). split; [|split; [assumption|now apply Forall_rev]].
  rewrite Hu at 1. f_equal.
  rewrite <- (rev_involutive a) at 1. rewrite Hv at 1.
  now rewrite rev_app_distr.
Qed.

Lemma splitAlphaNum_TrimSpace (s : gostring) :
  splitAlphaNum (TrimSpace s) = splitAlphaNum s.
Proof.
  destruct (TrimSpace_dropped s) as (u & v & E & Hu & Hv).
  rewrite E at 2. unfold splitAlphaNum, regexp.Split.
  rewrite WordFacts.fw_nonword_before by assumption.
  now rewrite WordFacts.fw_nonword_after by assumption.
Qed.

(** Nothing is left to trim at either end of a trimmed string. *)
Lemma TrimSpace_ends (s : gostring) :
  startsWithSpace (TrimSpace s) = false /\ endsWithSpace (TrimSpace s) = false.
Proof.
  unfold TrimSpace. set (a := TrimLeftSpace s).
  assert (dropRune spaceRunes a = None) as Ha
    by (apply TrimFacts.trimRunes_done;
        [apply TrimFacts.spaceRunes_nonempty|apply le_n]).
  assert (dropRune revRunes (rev (TrimRightSpace a)) = None) as Hb.
  { unfold TrimRightSpace. rewrite rev_involutive.
    apply TrimFacts.trimRunes_done;
      [apply TrimFacts.revRunes_nonempty|now rewrite length_rev]. }
  split.
  - unfold startsWithSpace.
    destruct (dropRune spaceRunes (TrimRightSpace a)) eqn:E; [|reflexivity].
    apply TrimFacts.dropRune_inv in E. destruct E as (p & Hp & E).
    destruct (TrimFacts.trimRunes_suffix revRunes (List.length a) (rev a))
      as (v & Hv).
    assert (a = p ++ g ++ rev v) as Ea.
    { rewrite <- (rev_involutive a), Hv, rev_app_distr.
      fold (TrimRightSpace a). rewrite E. now rewrite <- app_assoc. }
    rewrite Ea, (TrimFacts.spaceRunes_drop _ _ Hp) in Ha. discriminate.
  - unfold endsWithSpace. now rewrite Hb.
Qed.

Lemma TrimSpace_fixed (s : gostring) :
  startsWithSpace s = false -> endsWithSpace s = false -> TrimSpace s = s.
Proof.
  intros Hs He. unfold TrimSpace.
  rewrite (TrimFacts.TrimLeftSpace_id s Hs).
  now apply TrimFacts.TrimRightSpace_id.
Qed.

(** A token starts and ends with a word byte: trimming leaves it. *)
Lemma TrimSpace_token (w : gostring) : token w -> TrimSpace w = w.
Proof.
  intros [Hne Hw]. apply TrimSpace_fixed.
  - unfold startsWithSpace. destruct (dropRune spaceRunes w) eqn:E; [|reflexivity].
    apply TrimFacts.dropRune_inv in E. destruct E as (p & Hp & ->).
    pose proof (spaceRunes_nonword p Hp) as Hn.
    pose proof (TrimFacts.spaceRunes_nonempty p Hp) as Hp0.
    destruct p as [|c p]; [easy|].
    inversion Hw; subst. inversion Hn; subst.
    unfold nonWord in *. destruct (isWordByte c); discriminate.
  - unfold endsWithSpace. destruct (dropRune revRunes (rev w)) eqn:E; [|reflexivity].
    apply TrimFacts.dropRune_inv in E. destruct E as (p & Hp & E).
    pose proof (revRunes_nonword p Hp) as Hn.
    pose proof (TrimFacts.revRunes_nonempty p Hp) as Hp0.
    destruct p as [|c p]; [easy|].
    assert (In c w) as Hc by (apply in_rev; rewrite E; now left).
    unfold word in Hw. rewrite Forall_forall in Hw. apply Hw in Hc.
    inversion Hn; subst. unfold nonWord in *.
    destruct (isWordByte c); discriminate.
Qed.

End SpaceFacts.

(** ** The tokenizer's running set *)

Module DedupFacts.

Import strings nl spec.

Lemma streq_eq (a b : gostring) : streq a b = true <-> a = b.
Proof.
  revert b; induction a as [|x a IH]; intros [|y b]; simpl;
    try (split; [discriminate|discriminate]); [tauto|].
  rewrite andb_true_iff, Ascii.eqb_eq, IH. split.
  - now intros [-> ->].
  - intros H. now inversion H.
Qed.

Lemma seen_In (t : gostring) (l : list gostring) :
  existsb (streq t) l = true <-> In t l.
Proof.
  rewrite existsb_exists. split.
  - intros (x & Hx & E). apply streq_eq in E. now subst.
  - intros H. exists t. split; [assumption|now apply streq_eq].
Qed.

Lemma add_consistent (t : gostring) (st : tokens) :
  consistent st -> consistent (add t st).
Proof.
  intros [Hnd Hs]. unfold add.
  destruct (isEmpty t); [now split|].
  destruct (existsb (streq t) (seen st)) eqn:E; [now split|].
  assert (~ In t (out st)) as Hnot.
  { intros H. apply Hs, seen_In in H. congruence. }
  split; simpl.
  - apply NoDup_app; [assumption|repeat constructor; easy|].
    intros x Hx [<-|[]]. contradiction.
  - intros x. rewrite in_app_iff, Hs. simpl. tauto.
Qed.

Lemma addToken_consistent (st : tokens) (tok : gostring) :
  consistent st -> consistent (addToken st tok).
Proof.
  intros H. unfold addToken, addFields.
  apply (TokenFacts.fold_left_invariant consistent);
    [|now repeat apply add_consistent].
  intros st1 u _ H1. destruct (isEmpty u); [assumption|].
  unfold addParts.
  apply (TokenFacts.fold_left_invariant consistent); [|assumption].
  intros st2 p _ H2. now repeat apply add_consistent.
Qed.

(** A token once emitted stays, and [add] emits what is not empty. *)
Lemma add_keeps (t x : gostring) (st : tokens) :
  In x (out st) -> In x (out (add t st)).
Proof.
  intros H. unfold add. destruct (isEmpty t); [assumption|].
  destruct (existsb (streq t) (seen st)); [assumption|].
  simpl. apply in_or_app. now left.
Qed.

Lemma add_emits (t : gostring) (st : tokens) :
  consistent st -> t <> [] -> In t (out (add t st)).
Proof.
  intros [_ Hs] Hne. unfold add.
  destruct t as [|c t]; [easy|]. simpl isEmpty. cbv iota.
  destruct (existsb (streq (c :: t)) (seen st)) eqn:E.
  - now apply Hs, seen_In.
  - simpl. apply in_or_app. right. now left.
Qed.

Lemma addToken_keeps (st : tokens) (tok x : gostring) :
  In x (out st) -> In x (out (addToken st tok)).
Proof.
  intros H. unfold addToken, addFields.
  apply (TokenFacts.fold_left_invariant (fun st => In x (out st)));
    [|now repeat apply add_keeps].
  intros st1 u _ H1. destruct (isEmpty u); [assumption|].
  unfold addParts.
  apply (TokenFacts.fold_left_invariant (fun st => In x (out st)));
    [|assumption].
  intros st2 p _ H2. now repeat apply add_keeps.
Qed.

Lemma ToLower_nonempty (t : gostring) : t <> [] -> ToLower t <> [].
Proof. now destruct t. Qed.

Lemma addToken_emits (st : tokens) (tok : gostring) :
  consistent st -> tok <> [] ->
  In tok (out (addToken st tok)) /\ In (ToLower tok) (out (addToken st tok)).
Proof.
  intros H Hne.
  assert (In tok (out (add (ToLower tok) (add tok st)))
          /\ In (ToLower tok) (out (add (ToLower tok) (add tok st))))
    as [H1 H2].
  { split.
    - apply add_keeps. now apply add_emits.
    - apply add_emits; [now apply add_consistent|now apply ToLower_nonempty]. }
  unfold addToken, addFields. split.
  - apply (TokenFacts.fold_left_invariant (fun st => In tok (out st)));
      [|assumption].
    intros st1 u _ Hin. destruct (isEmpty u); [assumption|].
    unfold addParts.
    apply (TokenFacts.fold_left_invariant (fun st => In tok (out st)));
      [|assumption].
    intros st2 p _ Hin2. now repeat apply add_keeps.
  - apply (TokenFacts.fold_left_invariant (fun st => In (ToLower tok) (out st)));
      [|assumption].
    intros st1 u _ Hin. destruct (isEmpty u); [assumption|].
    unfold addParts.
    apply (TokenFacts.fold_left_invariant (fun st => In (ToLower tok) (out st)));
      [|assumption].
    intros st2 p _ Hin2. now repeat apply add_keeps.
Qed.

Lemma fold_addToken_emits (toks : list gostring) :
  forall st,
    consistent st -> Forall (fun t => t <> []) toks ->
    consistent (fold_left addToken toks st)
    /\ (forall x, In x (out st) -> In x (out (fold_left addToken toks st)))
    /\ Forall (fun t => In t (out (fold_left addToken toks st))
                        /\ In (ToLower t) (out (fold_left addToken toks st)))
         toks.
Proof.
  induction toks as [|tok toks IH]; intros st Hc Hne; simpl.
  - split; [assumption|]. split; [auto|constructor].
  - inversion Hne; subst.
    destruct (IH (addToken st tok) (addToken_consistent st tok Hc) H2)
      as (Hc' & Hk & Hf).
    split; [assumption|]. split.
    + intros x Hx. now apply Hk, addToken_keeps.
    + constructor; [|assumption].
      destruct (addToken_emits st tok Hc H1). split; now apply Hk.
Qed.

Lemma initial_consistent : consistent {| seen := []; out := [] |}.
Proof. split; [constructor|]. intros t. simpl. tauto. Qed.

(** A string has no word exactly when it has no word byte. *)
Lemma fw_cur_nonempty (s cur : gostring) :
  cur <> [] ->
  filterEmpty (regexp.splitRuns nonWord s cur false) <> [].
Proof.
  revert cur; induction s as [|c s IH]; intros cur Hcur.
  - simpl. destruct (rev cur) eqn:E; [|discriminate].
    apply (f_equal (@rev ascii)) in E. rewrite rev_involutive in E. easy.
  - destruct (nonWord c) eqn:E.
    + rewrite WordFacts.fw_sep by assumption. simpl.
      destruct (rev cur) eqn:E2; [|discriminate].
      apply (f_equal (@rev ascii)) in E2. rewrite rev_involutive in E2. easy.
    + rewrite WordFacts.fw_word by assumption. apply IH. discriminate.
Qed.

Lemma splitAlphaNum_nil (s : gostring) :
  splitAlphaNum s = [] <-> forallb nonWord s = true.
Proof.
  unfold splitAlphaNum, regexp.Split. split.
  - induction s as [|c s IH]; [reflexivity|].
    destruct (nonWord c) eqn:E.
    + rewrite WordFacts.fw_sep by assumption. simpl. rewrite E.
      exact IH.
    + rewrite WordFacts.fw_word by assumption. intros H.
      now apply fw_cur_nonempty in H.
  - intros H. apply WordFacts.fw_nonword.
    apply Forall_forall. intros c Hc.
    rewrite forallb_forall in H. now apply H.
Qed.

Lemma Subtokenize_raw_tokens (s : gostring) :
  Forall (fun t => In t (Subtokenize s) /\ In (ToLower t) (Subtokenize s))
    (splitAlphaNum s).
Proof.
  unfold Subtokenize. destruct s as [|c s]; [constructor|].
  simpl isEmpty. cbv iota.
  rewrite WordFacts.splitAlphaNum_ReplaceSeparators.
  apply (fold_addToken_emits (splitAlphaNum (c :: s))).
  - apply initial_consistent.
  - eapply Forall_impl; [|apply WordFacts.splitAlphaNum_tokens].
    now intros t [Hne _].
Qed.

End DedupFacts.

(** X1: the tokenizer never returns a token twice, whatever the input. *)
Theorem X1_subtokenize_nodup (s : gostring) : NoDup (nl.Subtokenize s).
Proof.
  unfold nl.Subtokenize. destruct (isEmpty s); [constructor|].
  apply (TokenFacts.fold_left_invariant spec.consistent).
  - intros st tok _ H. now apply DedupFacts.addToken_consistent.
  - apply DedupFacts.initial_consistent.
Qed.

(** X2: every maximal run of letters, digits and underscores of the
    input is a token, and so is its lower-case form. *)
Theorem X2_subtokenize_raw_tokens (s : gostring) :
  Forall (fun t => In t (nl.Subtokenize s)
                   /\ In (strings.ToLower t) (nl.Subtokenize s))
    (nl.splitAlphaNum s).
Proof. apply DedupFacts.Subtokenize_raw_tokens. Qed.

(** X3: the tokenizer returns no token exactly when the input has no
    letter, digit or underscore. *)
Theorem X3_subtokenize_empty (s : gostring) :
  match nl.Subtokenize s with [] => true | _ :: _ => false end
  = forallb nl.nonWord s.
Proof.
  destruct (forallb nl.nonWord s) eqn:E.
  - unfold nl.Subtokenize. destruct (isEmpty s); [reflexivity|].
    rewrite WordFacts.splitAlphaNum_ReplaceSeparators.
    apply DedupFacts.splitAlphaNum_nil in E. now rewrite E.
  - pose proof (DedupFacts.Subtokenize_raw_tokens s) as H.
    destruct (nl.splitAlphaNum s) as [|t ts] eqn:Es.
    + apply DedupFacts.splitAlphaNum_nil in Es. congruence.
    + inversion H as [|? ? [Hin _] _]; subst.
      now destruct (nl.Subtokenize s).
Qed.

(** ** The humanizer and the text tokenizer *)

Module HumanizeFacts.

Import strings nl spec.

Lemma filterEmpty_tokens (ws : list gostring) :
  Forall token ws -> filterEmpty ws = ws.
Proof.
  induction 1 as [|w ws [Hne _] _ IH]; [reflexivity|].
  simpl. rewrite IH. now destruct w.
Qed.

Lemma map_TrimSpace_tokens (ws : list gostring) :
  Forall token ws -> map TrimSpace ws = ws.
Proof.
  induction 1 as [|w ws Hw _ IH]; [reflexivity|].
  simpl. now rewrite IH, (SpaceFacts.TrimSpace_token w Hw).
Qed.

(** [Humanize] joins the words of its argument by single spaces. *)
Lemma Humanize_words (s : gostring) :
  Humanize s = Join (splitAlphaNum s) (str " ").
Proof.
  unfold Humanize. destruct s as [|c s]; [reflexivity|].
  simpl isEmpty. cbv iota.
  rewrite WordFacts.splitAlphaNum_ReplaceSeparators.
  pose proof (WordFacts.splitAlphaNum_tokens (c :: s)) as H.
  now rewrite (map_TrimSpace_tokens _ H), (filterEmpty_tokens _ H).
Qed.

Lemma splitAlphaNum_Humanize (s : gostring) :
  splitAlphaNum (Humanize s) = splitAlphaNum s.
Proof.
  rewrite Humanize_words. apply WordFacts.splitAlphaNum_Join.
  apply WordFacts.splitAlphaNum_tokens.
Qed.

Lemma splitAlphaNum_TokenizeForText (s : gostring) :
  splitAlphaNum (TokenizeForText s) = splitAlphaNum s.
Proof.
  unfold TokenizeForText. fold (splitAlphaNum s).
  apply WordFacts.splitAlphaNum_Join. apply WordFacts.splitAlphaNum_tokens.
Qed.

(** The bytes of words joined by spaces. *)
Lemma Join_bytes (P : ascii -> Prop) (ws : list gostring) (sep : gostring) :
  Forall (Forall P) ws -> Forall P sep -> Forall P (Join ws sep).
Proof.
  intros H Hsep. induction H as [|w ws Hw Hws IH]; [constructor|].
  destruct ws as [|w2 ws]; [exact Hw|].
  change (Join (w :: w2 :: ws) sep) with (w ++ sep ++ Join (w2 :: ws) sep).
  apply Forall_app. split; [exact Hw|].
  apply Forall_app. split; [exact Hsep|exact IH].
Qed.

End HumanizeFacts.

(** X4: [Humanize] and [TokenizeForText] are the same function: the
    replacement of the scope separators and the trimming of the parts
    change nothing, both give the words of the string joined by single
    spaces. *)
Theorem X4_humanize_is_tokenize (s : gostring) :
  nl.Humanize s = nl.TokenizeForText s.
Proof. apply HumanizeFacts.Humanize_words. Qed.

(** X5: [TokenizeForText] is idempotent, and white space around its
    argument does not change its result. *)
Theorem X5_tokenize_idempotent (s : gostring) :
  nl.TokenizeForText (nl.TokenizeForText s) = nl.TokenizeForText s
  /\ nl.TokenizeForText (strings.TrimSpace s) = nl.TokenizeForText s.
Proof.
  split.
  - unfold nl.TokenizeForText at 1.
    fold (nl.splitAlphaNum (nl.TokenizeForText s)).
    now rewrite HumanizeFacts.splitAlphaNum_TokenizeForText.
  - unfold nl.TokenizeForText.
    fold (nl.splitAlphaNum (strings.TrimSpace s)).
    now rewrite SpaceFacts.splitAlphaNum_TrimSpace.
Qed.

(** X6: the code view of every chunk neither starts nor ends with
    white space, and trimming it again leaves it as it is. *)
Theorem X6_code_view_trimmed (c : model.SemanticChunk) :
  let v := nl.CodeView (nl.BuildViews c) in
  spec.startsWithSpace v = false /\ spec.endsWithSpace v = false
  /\ strings.TrimSpace v = v.
Proof.
  intros v.
  destruct (SpaceFacts.TrimSpace_ends
              (model.Signature c ++ nl.newline
               ++ model.Snippet (model.Context c))) as [H1 H2].
  split; [exact H1|]. split; [exact H2|].
  now apply SpaceFacts.TrimSpace_fixed.
Qed.

(** ** The text view *)

Module TextViewFacts.

Import strings nl spec.

Lemma words_cut (a b : gostring) :
  splitAlphaNum (a ++ " "%char :: b) = splitAlphaNum a ++ splitAlphaNum b.
Proof. apply WordFacts.fw_cut. reflexivity. Qed.

Lemma words_literal (w b : gostring) :
  token w -> splitAlphaNum (w ++ " "%char :: b) = w :: splitAlphaNum b.
Proof.
  intros H. now rewrite words_cut, (WordFacts.splitAlphaNum_token w H).
Qed.

Lemma token_literal (w : gostring) :
  negb (isEmpty w) && forallb isWordByte w = true -> token w.
Proof.
  intros H. apply andb_true_iff in H. destruct H as [H1 H2]. split.
  - now destruct w.
  - apply Forall_forall. rewrite forallb_forall in H2. exact H2.
Qed.

Lemma words_between (w a b : gostring) :
  token w ->
  splitAlphaNum (a ++ " "%char :: (w ++ " "%char :: b))
  = splitAlphaNum a ++ [w] ++ splitAlphaNum b.
Proof. intros H. now rewrite words_cut, (words_literal w b H). Qed.

(** The words of the summary that [BuildViews] formats. *)
Lemma summary_words (codeType nameH docPart sigH module_ fileName nameRaw
                       sigRaw idents : gostring) (docWords : list gostring) :
  (forall b, splitAlphaNum (docPart ++ b) = docWords ++ splitAlphaNum b) ->
  splitAlphaNum
    (codeType ++ str " " ++ nameH ++ str " " ++ docPart ++ str "defined as "
     ++ sigH ++ str " module " ++ module_ ++ str " file " ++ fileName
     ++ str " original_name " ++ nameRaw ++ str " original_signature "
     ++ sigRaw ++ str " identifiers " ++ idents)
  = splitAlphaNum codeType ++ splitAlphaNum nameH ++ docWords
    ++ [str "defined"; str "as"] ++ splitAlphaNum sigH
    ++ [str "module"] ++ splitAlphaNum module_
    ++ [str "file"] ++ splitAlphaNum fileName
    ++ [str "original_name"] ++ splitAlphaNum nameRaw
    ++ [str "original_signature"] ++ splitAlphaNum sigRaw
    ++ [str "identifiers"] ++ splitAlphaNum idents.
Proof.
  intros Hdoc.
  assert (forall w, negb (isEmpty w) && forallb isWordByte w = true -> token w)
    as T by apply token_literal.
  change (str " " ++ nameH ++ ?b) with (" "%char :: (nameH ++ b)).
  rewrite words_cut. f_equal.
  change (str " " ++ docPart ++ ?b) with (" "%char :: (docPart ++ b)).
  rewrite words_cut. f_equal.
  rewrite Hdoc. f_equal.
  change (str "defined as " ++ ?b)
    with (str "defined" ++ " "%char :: (str "as" ++ " "%char :: b)).
  rewrite (words_literal (str "defined")) by (apply T; reflexivity).
  rewrite (words_literal (str "as")) by (apply T; reflexivity).
  change ([str "defined"; str "as"] ++ ?x) with (str "defined" :: str "as" :: x).
  do 2 f_equal.
  change (str " module " ++ ?b)
    with (" "%char :: (str "module" ++ " "%char :: b)).
  rewrite (words_between (str "module")) by (apply T; reflexivity).
  do 2 f_equal.
  change (str " file " ++ ?b)
    with (" "%char :: (str "file" ++ " "%char :: b)).
  rewrite (words_between (str "file")) by (apply T; reflexivity).
  do 2 f_equal.
  change (str " original_name " ++ ?b)
    with (" "%char :: (str "original_name" ++ " "%char :: b)).
  rewrite (words_between (str "original_name")) by (apply T; reflexivity).
  do 2 f_equal.
  change (str " original_signature " ++ ?b)
    with (" "%char :: (str "original_signature" ++ " "%char :: b)).
  rewrite (words_between (str "original_signature")) by (apply T; reflexivity).
  do 2 f_equal.
  change (str " identifiers " ++ ?b)
    with (" "%char :: (str "identifiers" ++ " "%char :: b)).
  now rewrite (words_between (str "identifiers")) by (apply T; reflexivity).
Qed.

End TextViewFacts.

(** X7: the words of the text view of every chunk, in order: those of
    the code type and of the name, "that does" and the words of the
    docstring when the trimmed docstring is not empty, "defined as" and
    the words of the signature, then the module, the file name, the name
    and the signature again behind their labels, then the identifier
    tokens.  The labels original_name and original_signature are always
    there. *)
Theorem X7_text_view_words (c : model.SemanticChunk) :
  let W := nl.splitAlphaNum in
  let ctx := model.Context c in
  W (nl.TextView (nl.BuildViews c))
  = W (model.CodeType c) ++ W (model.Name c)
    ++ (if isEmpty (strings.TrimSpace (model.Docstring c)) then []
        else [str "that"; str "does"] ++ W (model.Docstring c))
    ++ [str "defined"; str "as"] ++ W (model.Signature c)
    ++ [str "module"] ++ W (model.Module_ ctx)
    ++ [str "file"] ++ W (model.FileName ctx)
    ++ [str "original_name"] ++ W (model.Name c)
    ++ [str "original_signature"] ++ W (model.Signature c)
    ++ [str "identifiers"] ++ nl.Subtokenize (model.Name c).
Proof.
  intros W ctx. subst W.
  cbv beta iota zeta delta [nl.BuildViews nl.TextView].
  rewrite HumanizeFacts.splitAlphaNum_TokenizeForText.
  rewrite SpaceFacts.splitAlphaNum_TrimSpace.
  rewrite TextViewFacts.summary_words
    with (docWords :=
            if isEmpty (strings.TrimSpace (model.Docstring c)) then []
            else [str "that"; str "does"]
                 ++ nl.splitAlphaNum (model.Docstring c)).
  - rewrite !SpaceFacts.splitAlphaNum_TrimSpace.
    rewrite !HumanizeFacts.splitAlphaNum_Humanize.
    rewrite (WordFacts.splitAlphaNum_Join (nl.Subtokenize (model.Name c)))
      by apply TokenFacts.Subtokenize_tokens.
    reflexivity.
  - intros b.
    destruct (strings.TrimSpace (model.Docstring c)) as [|x doc] eqn:E;
      [reflexivity|].
    simpl negb. cbv iota. simpl isEmpty. cbv iota.
    rewrite <- !app_assoc.
    change (str "that does " ++ (x :: doc) ++ str " " ++ b)
      with (str "that" ++ " "%char
            :: (str "does" ++ " "%char :: ((x :: doc) ++ " "%char :: b))).
    rewrite !TextViewFacts.words_literal
      by (apply TextViewFacts.token_literal; reflexivity).
    rewrite TextViewFacts.words_cut. rewrite <- E.
    now rewrite SpaceFacts.splitAlphaNum_TrimSpace.
Qed.

(** X8: the text view of every chunk is free of punctuation: each of
    its bytes is an ASCII letter, a digit, an underscore or a space, and
    tokenizing it again gives it back. *)
Theorem X8_text_view_plain (c : model.SemanticChunk) :
  let v := nl.TextView (nl.BuildViews c) in
  forallb (fun b => spec.tokenByte b || Ascii.eqb b " ") v = true
  /\ nl.TokenizeForText v = v.
Proof.
  intros v. split.
  - apply forallb_forall. intros b Hb.
    assert (Forall (fun b => spec.tokenByte b = true \/ b = " "%char) v) as H.
    { apply HumanizeFacts.Join_bytes; [|repeat constructor; now right].
      eapply Forall_impl; [|apply WordFacts.splitAlphaNum_tokens].
      intros t [_ Ht]. eapply Forall_impl; [|exact Ht].
      intros a Ha. left. now rewrite <- TokenFacts.isWordByte_tokenByte. }
    rewrite Forall_forall in H. destruct (H b Hb) as [E| ->].
    + now rewrite E.
    + reflexivity.
  - unfold nl.TokenizeForText at 1. fold (nl.splitAlphaNum v).
    subst v. cbv beta iota zeta delta [nl.BuildViews nl.TextView].
    now rewrite HumanizeFacts.splitAlphaNum_TokenizeForText.
Qed.

(** ** Kinds, labels and the fields of a chunk *)

(** X9: the filter and the label table agree: a kind is extracted
    exactly when [symbolKindToString] has a label for it, that is when
    the label is not "Unknown". *)
Theorem X9_extractable_iff_labelled (K : lsp.SymbolKinds) (kind : Z) :
  parser.shouldExtractSymbol K kind
  = negb (streq (parser.symbolKindToString K kind) (str "Unknown")).
Proof.
  unfold parser.shouldExtractSymbol, parser.symbolKindToString, parser.kinds.
  simpl find.
  rewrite (Z.eqb_sym (lsp.SymbolKindFunction K)),
    (Z.eqb_sym (lsp.SymbolKindMethod K)), (Z.eqb_sym (lsp.SymbolKindClass K)),
    (Z.eqb_sym (lsp.SymbolKindStruct K)),
    (Z.eqb_sym (lsp.SymbolKindConstructor K)),
    (Z.eqb_sym (lsp.SymbolKindEnum K)), (Z.eqb_sym (lsp.SymbolKindInterface K)),
    (Z.eqb_sym (lsp.SymbolKindNamespace K)).
  repeat match goal with
         | |- context [(kind =? ?x)%Z] => destruct (kind =? x)%Z
         end; reflexivity.
Qed.
